(** * Sorted string tables: the Writer and the Reader of package sstable

    A shallow embedding of [writer.go] and [reader.go].  The byte streams
    (package filesystem), the record framing (package recordio) and the
    protocol-buffer encoding are collaborators of the package: they are
    taken through interfaces, as the Go code takes them, and an in-memory
    file is given as one instance. *)

From Stdlib Require Import ZArith Lia.
From stdpp Require Import base option list gmap strings sorting.

Local Open Scope Z_scope.

(** ** Go values *)

(** [strings.Compare]: bytewise lexicographic comparison, as -1, 0 or +1. *)
Definition strings_Compare (a b : string) : Z :=
  match String.compare a b with
  | Lt => -1
  | Eq => 0
  | Gt => 1
  end.

(** [len(s)] of a string: its number of bytes. *)
Definition len (s : string) : Z := Z.of_nat (String.length s).

(** Arithmetic on [int] and [int64] (both 64 bits wide here) wraps around. *)
Definition int64 (z : Z) : Z := (z + 2 ^ 63) mod 2 ^ 64 - 2 ^ 63.

(** [[]byte(s)] and [string(b)]. *)
Definition bytes_of (s : string) : list Byte.byte := String.list_byte_of_string s.
Definition string_of (b : list Byte.byte) : string := String.string_of_list_byte b.

(** ** Errors *)

(** Errors made by the collaborators: [io.EOF], and anything else a stream
    or a codec reports.  Go forbids import cycles, so none of the imported
    packages can hand back one of this package's own error values. *)
Inductive ext_error : Type :=
| io_EOF
| ExtError (code : string).

Inductive error : Type :=
| Err_NotSeeker
| Err_UnsupportedIndexType
| Err_KeyOrderViolation
| External (e : ext_error).

Global Instance ext_error_eq_dec : EqDecision ext_error.
Proof. solve_decision. Defined.
Global Instance error_eq_dec : EqDecision error.
Proof. solve_decision. Defined.

(** A call either returns or panics (division by zero, slice out of range). *)
Inductive exec (A : Type) : Type :=
| Done (a : A)
| Panic (why : string).
Global Arguments Done {A} a.
Global Arguments Panic {A} why.

(** ** Messages *)

(** The two protocol-buffer messages of the package, as the code uses them:
    [rdata.Key], [rdata.Value], [ir.Key], [ir.Offset]. *)
Record KeyValue : Type := mkKeyValue { Key : string; Value : string }.
Record IndexRecord : Type := mkIndexRecord { IKey : string; Offset : Z }.

(** ** Interfaces of the collaborators *)

(** One stream object: [filesystem.ReadCloser] or [filesystem.WriteCloser],
    its optional [filesystem.Seeker] side, and the [recordio] reader or
    writer wrapped around it.  Every operation takes the state of the
    stream and gives the state after the call. *)
Class Filesystem (F : Type) : Type := {
  (* Read(ctx, p) with len(p) = n: number of bytes read, error *)
  fs_Read : F → Z → F * (Z * option ext_error);
  (* x.(filesystem.Seeker): does the stream implement Seeker *)
  fs_Seeker : F → bool;
  fs_Seek : F → Z → F * option ext_error;
  fs_Tell : F → F * (Z * option ext_error);
  (* recordio.RecordWriter.Write: number of bytes written, error *)
  rio_Write : F → list Byte.byte → F * (Z * option ext_error);
  (* recordio.RecordReader.ReadMessage into a KeyValue, an IndexRecord *)
  rio_ReadKeyValue : F → F * (KeyValue * option ext_error);
  rio_ReadIndexRecord : F → F * (IndexRecord * option ext_error);
}.

(** [proto.Marshal] and [proto.Size] on the two messages of the package. *)
Class ProtoCodec : Type := {
  proto_Marshal_KeyValue : KeyValue → list Byte.byte * option ext_error;
  proto_Marshal_IndexRecord : IndexRecord → list Byte.byte * option ext_error;
  proto_Size_IndexRecord : IndexRecord → Z;
}.

(** A caller's [proto.Message]. *)
Class ProtoMessage (M : Type) : Type := {
  pb_Reset : M → M;
  pb_Marshal : M → list Byte.byte * option ext_error;
  pb_Unmarshal : list Byte.byte → M → M * option ext_error;
}.

(** The order in which [for k, v = range m] visits a map is not specified
    by Go: it is a parameter, and a lawful one visits every entry once. *)
Class MapRange : Type :=
  go_range : ∀ V : Type, gmap string V → list (string * V).
Global Arguments go_range {_ _} m.

Definition range_lawful {range : MapRange} : Prop :=
  ∀ (V : Type) (m : gmap string V), go_range m ≡ₚ map_to_list m.

(** [sort.Strings]. *)
Definition sort_Strings (keys : list string) : list string :=
  merge_sort String.le keys.

(** ** The Writer *)

Definition IndexType_NONE : Z := 0.
Definition IndexType_EVERY_N : Z := 1.
Definition IndexType_PREFIXLEN : Z := 2.

Section Writer.
Context {F : Type} {fs : Filesystem F} {codec : ProtoCodec} {range : MapRange}.

(** [out_seek] is the same object as [out], seen as a Seeker; the field
    says whether it is non-nil.  [out_idx] is [None] when nil. *)
Record Writer : Type := mkWriter {
  out : F;
  out_seek : bool;
  out_idx : option F;
  index_type : Z;
  index_n : Z;
  last_key : string;
  index_offset : Z;
  prev_index_ctr : Z;
  prev_index_prefix : string;
}.

Definition set_out (o : F) (w : Writer) : Writer :=
  mkWriter o (out_seek w) (out_idx w) (index_type w) (index_n w)
    (last_key w) (index_offset w) (prev_index_ctr w) (prev_index_prefix w).
Definition set_out_idx (o : option F) (w : Writer) : Writer :=
  mkWriter (out w) (out_seek w) o (index_type w) (index_n w)
    (last_key w) (index_offset w) (prev_index_ctr w) (prev_index_prefix w).
Definition set_last_key (k : string) (w : Writer) : Writer :=
  mkWriter (out w) (out_seek w) (out_idx w) (index_type w) (index_n w)
    k (index_offset w) (prev_index_ctr w) (prev_index_prefix w).
Definition set_index_offset (o : Z) (w : Writer) : Writer :=
  mkWriter (out w) (out_seek w) (out_idx w) (index_type w) (index_n w)
    (last_key w) o (prev_index_ctr w) (prev_index_prefix w).
Definition set_prev_index_ctr (c : Z) (w : Writer) : Writer :=
  mkWriter (out w) (out_seek w) (out_idx w) (index_type w) (index_n w)
    (last_key w) (index_offset w) c (prev_index_prefix w).
Definition set_prev_index_prefix (p : string) (w : Writer) : Writer :=
  mkWriter (out w) (out_seek w) (out_idx w) (index_type w) (index_n w)
    (last_key w) (index_offset w) (prev_index_ctr w) p.

(** The position a constructor starts from: [Tell] when the stream is a
    Seeker and [Tell] works, zero otherwise. *)
Definition initial_offset (o : F) : F * Z :=
  if fs_Seeker o then
    let '(o', (offset, err)) := fs_Tell o in
    match err with
    | Some _ => (o', 0)
    | None => (o', offset)
    end
  else (o, 0).

Definition NewWriter (o : F) : Writer :=
  let '(o', offset) := initial_offset o in
  mkWriter o' (fs_Seeker o) None IndexType_NONE 0 "" offset 0 "".

Definition NewIndexedWriter (o o_idx : F) (index_type n : Z) : Writer :=
  let '(o', offset) := initial_offset o in
  mkWriter o' (fs_Seeker o) (Some o_idx) index_type n "" offset 0 "".

(** The block both index policies share: marshal an IndexRecord for key
    [k] at the current [index_offset], write it to the index stream and
    remember [k] in [prev_index_prefix]. *)
Definition emitIndexRecord (w : Writer) (idx : F) (k : string)
  : Writer * option error :=
  let ir := mkIndexRecord k (index_offset w) in
  let '(idxdata, err) := proto_Marshal_IndexRecord ir in
  match err with
  | Some e => (w, Some (External e))
  | None =>
    let '(idx', (_, err)) := rio_Write idx idxdata in
    let w := set_out_idx (Some idx') w in
    match err with
    | Some e => (w, Some (External e))
    | None => (set_prev_index_prefix k w, None)
    end
  end.

(** "Now, generate the index entry": the switch on the index type.  The
    error is what WriteString returns at once; [None] falls through to
    the counters. *)
Definition generateIndexEntry (w : Writer) (key : string)
  : exec (Writer * option error) :=
  match out_idx w with
  | Some idx =>
    if index_type w =? IndexType_NONE then Done (w, None)
    else if index_type w =? IndexType_PREFIXLEN then
      if (len key >? index_n w) && (index_n w <? 0) then
        Panic "slice bounds out of range"
      else
        let prefix :=
          if len key <=? index_n w then key
          else String.substring 0 (Z.to_nat (index_n w)) key in
        if decide (prefix ≠ prev_index_prefix w) then
          Done (emitIndexRecord w idx prefix)
        else Done (w, None)
    else if index_type w =? IndexType_EVERY_N then
      if index_n w =? 0 then Panic "integer divide by zero"
      else
        let w :=
          set_prev_index_ctr
            (Z.rem (int64 (prev_index_ctr w + 1)) (index_n w)) w in
        if prev_index_ctr w =? 0 then Done (emitIndexRecord w idx key)
        else Done (w, None)
    else Done (w, Some Err_UnsupportedIndexType)
  | None => Done (w, None)
  end.

(** "Finally, update counters": the tail of WriteString. *)
Definition updateCounters (w : Writer) (length : Z) : Writer :=
  if out_seek w then
    let '(o', (new_offset, err)) := fs_Tell (out w) in
    let w := set_out o' w in
    match err with
    | None => set_index_offset new_offset w
    | Some _ => set_index_offset (int64 (index_offset w + length)) w
    end
  else w.

Definition WriteString (w : Writer) (key value : string)
  : exec (Writer * option error) :=
  if 0 <? strings_Compare (last_key w) key then
    Done (w, Some Err_KeyOrderViolation)
  else
    let rdata := mkKeyValue key value in
    let '(record, err) := proto_Marshal_KeyValue rdata in
    match err with
    | Some e => Done (w, Some (External e))
    | None =>
      (* Then, write out the actual data. *)
      let '(o', (length, err)) := rio_Write (out w) record in
      let w := set_out o' w in
      match err with
      | Some e => Done (w, Some (External e))
      | None =>
        let w := set_last_key key w in
        match generateIndexEntry w key with
        | Panic why => Panic why
        | Done (w, Some e) => Done (w, Some e)
        | Done (w, None) => Done (updateCounters w length, None)
        end
      end
    end.

Definition WriteProto {M : Type} {pm : ProtoMessage M}
    (w : Writer) (key : string) (value : M)
  : exec (Writer * option error) :=
  let '(pbdata, err) := pb_Marshal value in
  match err with
  | Some e => Done (w, Some (External e))
  | None => WriteString w key (string_of pbdata)
  end.

(** [for _, key = range keys { err = w.WriteString(ctx, key, data[key]) }] *)
Fixpoint WriteStringMap_loop (w : Writer) (data : gmap string string)
    (keys : list string) : exec (Writer * option error) :=
  match keys with
  | [] => Done (w, None)
  | key :: keys =>
    match WriteString w key (default "" (data !! key)) with
    | Panic why => Panic why
    | Done (w, Some err) => Done (w, Some err)
    | Done (w, None) => WriteStringMap_loop w data keys
    end
  end.

Definition WriteStringMap (w : Writer) (data : gmap string string)
  : exec (Writer * option error) :=
  let keys := (go_range data).*1 in
  let keys := sort_Strings keys in
  WriteStringMap_loop w data keys.

(** [for key, value = range data { err = w.WriteProto(ctx, key, value) }] *)
Fixpoint WriteProtoMap_loop {M : Type} {pm : ProtoMessage M}
    (w : Writer) (entries : list (string * M))
  : exec (Writer * option error) :=
  match entries with
  | [] => Done (w, None)
  | (key, value) :: entries =>
    match WriteProto w key value with
    | Panic why => Panic why
    | Done (w, Some err) => Done (w, Some err)
    | Done (w, None) => WriteProtoMap_loop w entries
    end
  end.

Definition WriteProtoMap {M : Type} {pm : ProtoMessage M}
    (w : Writer) (data : gmap string M) : exec (Writer * option error) :=
  WriteProtoMap_loop w (go_range data).
End Writer.
Global Arguments Writer : clear implicits.

(** ** The Reader *)

(** What [ctx.Err()] answers while a call runs. *)
Definition Context : Type := option ext_error.

Section Reader.
Context {F : Type} {fs : Filesystem F} {codec : ProtoCodec} {range : MapRange}.

(** [in] and [in_idx] are the recordio readers around [orig_in] and
    [orig_in_idx]: one field stands for both, and [orig_in_idx] is [None]
    when the reader has no index stream ([in_idx == nil]). *)
Record Reader : Type := mkReader {
  orig_in : F;
  offset : Z;
  orig_in_idx : option F;
  idx_offset : Z;
  cache_entry_index : bool;
  entry_index_cache : gmap string Z;
}.

Definition set_orig_in (i : F) (r : Reader) : Reader :=
  mkReader i (offset r) (orig_in_idx r) (idx_offset r)
    (cache_entry_index r) (entry_index_cache r).
Definition set_offset (o : Z) (r : Reader) : Reader :=
  mkReader (orig_in r) o (orig_in_idx r) (idx_offset r)
    (cache_entry_index r) (entry_index_cache r).
Definition set_orig_in_idx (i : F) (r : Reader) : Reader :=
  mkReader (orig_in r) (offset r) (Some i) (idx_offset r)
    (cache_entry_index r) (entry_index_cache r).
Definition set_idx_offset (o : Z) (r : Reader) : Reader :=
  mkReader (orig_in r) (offset r) (orig_in_idx r) o
    (cache_entry_index r) (entry_index_cache r).
Definition set_entry_index_cache (c : gmap string Z) (r : Reader) : Reader :=
  mkReader (orig_in r) (offset r) (orig_in_idx r) (idx_offset r)
    (cache_entry_index r) c.

Definition NewReader (i : F) : Reader := mkReader i 0 None 0 false ∅.

(** The loop of cacheEntryIndex; [seeker] is the [ok] of the type
    assertion.  [inl e]: the loop returned [e] (the context's error);
    [inr e]: the read error [e] broke the loop.  [None]: the loop is
    still running when the fuel is spent. *)
Fixpoint cacheEntryIndex_loop (fuel : nat) (ctx : Context) (seeker : bool)
    (r : Reader) (idx : F) : option (Reader * (ext_error + ext_error)) :=
  match fuel with
  | O => None
  | S fuel =>
    match ctx with
    | Some e => Some (r, inl e)
    | None =>
      let '(idx, (ir, err)) := rio_ReadIndexRecord idx in
      let r := set_orig_in_idx idx r in
      match err with
      | Some e => Some (r, inr e)
      | None =>
        let '(r, idx) :=
          if seeker then
            let '(idx, (new_offset, err)) := fs_Tell idx in
            let r := set_orig_in_idx idx r in
            match err with
            | None => (set_idx_offset new_offset r, idx)
            | Some _ =>
              (set_idx_offset
                 (int64 (idx_offset r + proto_Size_IndexRecord ir)) r, idx)
            end
          else
            (set_idx_offset
               (int64 (idx_offset r + proto_Size_IndexRecord ir)) r, idx) in
        let r :=
          set_entry_index_cache
            (<[IKey ir := Offset ir]> (entry_index_cache r)) r in
        cacheEntryIndex_loop fuel ctx seeker r idx
      end
    end
  end.

Definition cacheEntryIndex (fuel : nat) (ctx : Context) (r : Reader)
  : option (Reader * option error) :=
  match cache_entry_index r, orig_in_idx r with
  | true, Some idx =>
    let ok := fs_Seeker idx in
    let r := set_entry_index_cache ∅ r in
    let rewound : Reader * F * option error :=
      if 0 <? idx_offset r then
        if negb ok then (r, idx, Some Err_NotSeeker)
        else
          (* Go back to the beginning of the index. *)
          let '(idx, err) := fs_Seek idx 0 in
          let r := set_orig_in_idx idx r in
          match err with
          | Some e => (r, idx, Some (External e))
          | None => (set_idx_offset 0 r, idx, None)
          end
      else (r, idx, None) in
    match rewound with
    | (r, _, Some e) => Some (r, Some e)
    | (r, idx, None) =>
      match cacheEntryIndex_loop fuel ctx ok r idx with
      | None => None
      | Some (r, inl err) => Some (r, Some (External err))
      | Some (r, inr err) =>
        if decide (err ≠ io_EOF) then Some (r, Some (External err))
        else Some (r, None)
      end
    end
  | _, _ => Some (r, None)
  end.

Definition NewReaderWithIdx (fuel : nat) (ctx : Context) (sst idx : F)
    (create_cache : bool) : option (Reader * option error) :=
  let rd := mkReader sst 0 (Some idx) 0 create_cache ∅ in
  if create_cache then cacheEntryIndex fuel ctx rd else Some (rd, None).

Definition Tell (r : Reader) : Reader * Z :=
  if fs_Seeker (orig_in r) then
    (* Ask seeker for the current position. *)
    let '(i, (offset', err)) := fs_Tell (orig_in r) in
    let r := set_orig_in i r in
    match err with
    | Some _ => let r := set_offset offset' r in (r, offset r)
    | None => (r, offset r)
    end
  else (r, offset r).

(** [for r.offset < offset { ... }] of SeekTo, on a stream that is not a
    Seeker. *)
Fixpoint SeekTo_loop (fuel : nat) (r : Reader) (offset' : Z)
  : option (Reader * option error) :=
  if offset r <? offset' then
    match fuel with
    | O => None
    | S fuel =>
      let l :=
        if int64 (offset' - offset r) <? 1024
        then int64 (offset' - offset r) else 1024 in
      let '(i, (l, err)) := fs_Read (orig_in r) l in
      let r := set_orig_in i r in
      let r := set_offset (int64 (offset r + l)) r in
      match err with
      | Some e => Some (r, Some (External e))
      | None => SeekTo_loop fuel r offset'
      end
    end
  else Some (r, None).

Definition SeekTo (fuel : nat) (r : Reader) (offset' : Z)
  : option (Reader * option error) :=
  if fs_Seeker (orig_in r) then
    (* Just tell the seeker to go to that position. *)
    let '(i, err) := fs_Seek (orig_in r) offset' in
    let r := set_orig_in i r in
    match err with
    | Some e => Some (set_offset offset' r, Some (External e))
    | None => Some (r, None)
    end
  else if offset' <? offset r then Some (r, Some Err_NotSeeker)
  else SeekTo_loop fuel r offset'.

(** The [range] loop of indexLookup over the cached index. *)
Fixpoint indexLookup_cache (entries : list (string * Z))
    (key closest_k : string) (closest_v : Z) : Z :=
  match entries with
  | [] => closest_v
  | (k, v) :: entries =>
    (* Is the key we're looking for after the current key? *)
    if 0 <? strings_Compare key k then
      (* Is it closer than the previous match? *)
      if 0 <? strings_Compare k closest_k
      then indexLookup_cache entries key k v
      else indexLookup_cache entries key closest_k closest_v
    else if strings_Compare key k =? 0 then v
    else indexLookup_cache entries key closest_k closest_v
  end.

(** The [for] loop of indexLookup over the on-disk index. *)
Fixpoint indexLookup_disk (fuel : nat) (r : Reader) (idx : F)
    (key closest_k : string) (closest_v : Z)
  : option (Reader * (Z * option error)) :=
  match fuel with
  | O => None
  | S fuel =>
    let '(idx, (ir, err)) := rio_ReadIndexRecord idx in
    let r := set_orig_in_idx idx r in
    match err with
    | Some io_EOF => Some (r, (closest_v, None))
    | Some e => Some (r, (closest_v, Some (External e)))
    | None =>
      let r := set_idx_offset
                 (int64 (idx_offset r + proto_Size_IndexRecord ir)) r in
      (* Is the key we're looking for after the current key? *)
      if 0 <? strings_Compare key (IKey ir) then
        (* Is it closer than the previous match? *)
        if 0 <? strings_Compare (IKey ir) closest_k
        then indexLookup_disk fuel r idx key (IKey ir) (Offset ir)
        else indexLookup_disk fuel r idx key closest_k closest_v
      else if strings_Compare key (IKey ir) =? 0 then
        Some (r, (Offset ir, None))
      else indexLookup_disk fuel r idx key closest_k closest_v
    end
  end.

Definition indexLookup (fuel : nat) (r : Reader) (key : string)
  : option (Reader * (Z * option error)) :=
  if cache_entry_index r then
    (* Look up the key in the index. *)
    Some (r, (indexLookup_cache (go_range (entry_index_cache r)) key "" 0,
              None))
  else
    match orig_in_idx r with
    | Some idx =>
      (* Read the on-disk index instead and locate the key in it. *)
      if 0 <? idx_offset r then
        if negb (fs_Seeker idx) then Some (r, (0, Some Err_NotSeeker))
        else
          (* Go back to the beginning of the index. *)
          let '(idx, _) := fs_Seek idx 0 in
          let r := set_orig_in_idx idx r in
          let r := set_idx_offset 0 r in
          indexLookup_disk fuel r idx key "" 0
      else indexLookup_disk fuel r idx key "" 0
    | None => Some (r, (idx_offset r, None))
    end.

(** The [for] loop of ReadString over the data stream. *)
Fixpoint ReadString_loop (fuel : nat) (r : Reader) (key : string)
  : option (Reader * (string * option error)) :=
  match fuel with
  | O => None
  | S fuel =>
    let '(i, (rdata, err)) := rio_ReadKeyValue (orig_in r) in
    let r := set_orig_in i r in
    match err with
    | Some io_EOF =>
      (* End of file; record not found. *)
      Some (r, ("", None))
    | Some e => Some (r, ("", Some (External e)))
    | None =>
      let cv := strings_Compare (Key rdata) key in
      if cv =? 0 then Some (r, (Value rdata, None))
      else if 0 <? cv then
        (* We're well past the record now and it wasn't found. *)
        Some (r, ("", None))
      else ReadString_loop fuel r key
    end
  end.

Definition ReadString (fuel : nat) (r : Reader) (key : string)
  : option (Reader * (string * option error)) :=
  (* Determine the latest index record which suggests that searching
     from it might be useful. *)
  match indexLookup fuel r key with
  | None => None
  | Some (r, (_, Some err)) => Some (r, ("", Some err))
  | Some (r, (offset', None)) =>
    (* Now go to that point. *)
    match SeekTo fuel r offset' with
    | None => None
    | Some (r, Some err) => Some (r, ("", Some err))
    | Some (r, None) => ReadString_loop fuel r key
    end
  end.

Definition ReadProto {M : Type} {pm : ProtoMessage M}
    (fuel : nat) (r : Reader) (key : string) (pb : M)
  : option (Reader * (M * option error)) :=
  match ReadString fuel r key with
  | None => None
  | Some (r, (_, Some err)) => Some (r, (pb, Some err))
  | Some (r, (val, None)) =>
    let pb := pb_Reset pb in
    (* Fill the result into the specified protocol buffer. *)
    let '(pb, err) := pb_Unmarshal (bytes_of val) pb in
    Some (r, (pb, External <$> err))
  end.
End Reader.
Global Arguments Reader : clear implicits.

(** ** The Reader: sequential reads, reads of everything, reads at or after *)

Section ReaderScans.
Context {F : Type} {fs : Filesystem F} {codec : ProtoCodec} {range : MapRange}.

(** ReadAllStrings; [rv] is the caller's map (not nil). *)
Fixpoint ReadAllStrings (fuel : nat) (r : Reader F) (rv : gmap string string)
  : option (Reader F * (gmap string string * option error)) :=
  match fuel with
  | O => None
  | S fuel =>
    let '(i, (rdata, err)) := rio_ReadKeyValue (orig_in r) in
    let r := set_orig_in i r in
    match err with
    | Some io_EOF => Some (r, (rv, None))
    | Some e => Some (r, (rv, Some (External e)))
    | None => ReadAllStrings fuel r (<[Key rdata := Value rdata]> rv)
    end
  end.


Definition ReadNextString (r : Reader F)
  : Reader F * (string * string * option error) :=
  let '(i, (rdata, err)) := rio_ReadKeyValue (orig_in r) in
  let r := set_orig_in i r in
  match err with
  | Some e => (r, ("", "", Some (External e)))
  | None => (r, (Key rdata, Value rdata, None))
  end.

Definition ReadNextProto {M : Type} {pm : ProtoMessage M}
    (r : Reader F) (pb : M) : Reader F * (M * (string * option error)) :=
  match ReadNextString r with
  | (r, (_, _, Some err)) => (r, (pb, ("", Some err)))
  | (r, (key, val, None)) =>
    let pb := pb_Reset pb in
    (* Fill the result into the specified protocol buffer. *)
    let '(pb, err) := pb_Unmarshal (bytes_of val) pb in
    (r, (pb, (key, External <$> err)))
  end.

(** The [for] loop of ReadSubsequentString. *)
Fixpoint ReadSubsequentString_loop (fuel : nat) (r : Reader F) (key : string)
  : option (Reader F * (string * string * option error)) :=
  match fuel with
  | O => None
  | S fuel =>
    let '(i, (rdata, err)) := rio_ReadKeyValue (orig_in r) in
    let r := set_orig_in i r in
    match err with
    | Some io_EOF =>
      (* End of file; record not found. *)
      Some (r, ("", "", None))
    | Some e => Some (r, ("", "", Some (External e)))
    | None =>
      let cv := strings_Compare (Key rdata) key in
      if (cv =? 0) || (0 <? cv) then Some (r, (Key rdata, Value rdata, None))
      else ReadSubsequentString_loop fuel r key
    end
  end.

Definition ReadSubsequentString (fuel : nat) (r : Reader F) (key : string)
  : option (Reader F * (string * string * option error)) :=
  match indexLookup fuel r key with
  | None => None
  | Some (r, (_, Some err)) => Some (r, ("", "", Some err))
  | Some (r, (offset', None)) =>
    (* Now go to that point. *)
    match SeekTo fuel r offset' with
    | None => None
    | Some (r, Some err) => Some (r, ("", "", Some err))
    | Some (r, None) => ReadSubsequentString_loop fuel r key
    end
  end.

Definition ReadSubsequentProto {M : Type} {pm : ProtoMessage M}
    (fuel : nat) (r : Reader F) (key : string) (pb : M)
  : option (Reader F * (M * (string * option error))) :=
  match ReadSubsequentString fuel r key with
  | None => None
  | Some (r, (_, _, Some err)) => Some (r, (pb, ("", Some err)))
  | Some (r, (rkey, val, None)) =>
    let pb := pb_Reset pb in
    (* Fill the result into the specified protocol buffer. *)
    let '(pb, err) := pb_Unmarshal (bytes_of val) pb in
    Some (r, (pb, (rkey, External <$> err)))
  end.
End ReaderScans.

(** ** An instance: in-memory files, length-prefixed frames, proto3 wire format

    A stand-in for the collaborators the package's tests run against: an
    anonymous in-memory file, recordio's framing and the wire encoding of
    the two messages.  The theorems on [Writer] and [Reader] are stated over
    the interfaces; this instance runs them. *)
Module Wire.
Definition Z_of_byte (b : Byte.byte) : Z := Z.of_N (Byte.to_N b).
Definition byte_of_Z (z : Z) : Byte.byte :=
  default Byte.x00 (Byte.of_N (Z.to_N (z mod 256))).

(** Base-128 varints, least significant group first. *)
Fixpoint varint_enc (fuel : nat) (n : Z) : list Byte.byte :=
  match fuel with
  | O => []
  | S fuel =>
    if n <? 128 then [byte_of_Z n]
    else byte_of_Z (n mod 128 + 128) :: varint_enc fuel (n / 128)
  end.
Definition varint (n : Z) : list Byte.byte := varint_enc 10 (n mod 2 ^ 64).

Fixpoint varint_dec (fuel : nat) (b : list Byte.byte)
  : option (Z * list Byte.byte) :=
  match fuel, b with
  | S fuel, x :: b =>
    if Z_of_byte x <? 128 then Some (Z_of_byte x, b)
    else
      match varint_dec fuel b with
      | Some (hi, rest) => Some (Z_of_byte x - 128 + 128 * hi, rest)
      | None => None
      end
  | _, _ => None
  end.

Inductive value : Type :=
| Varint (z : Z)
| Bytes (b : list Byte.byte).

(** A message is a sequence of (field number, value). *)
Fixpoint fields (fuel : nat) (b : list Byte.byte)
  : option (list (Z * value)) :=
  match b with
  | [] => Some []
  | _ =>
    match fuel with
    | O => None
    | S fuel =>
      match varint_dec 10 b with
      | None => None
      | Some (tag, b) =>
        if tag mod 8 =? 0 then
          match varint_dec 10 b with
          | None => None
          | Some (z, b) => cons (tag / 8, Varint z) <$> fields fuel b
          end
        else if tag mod 8 =? 2 then
          match varint_dec 10 b with
          | None => None
          | Some (n, b) =>
            if n <=? Z.of_nat (length b) then
              cons (tag / 8, Bytes (take (Z.to_nat n) b))
                <$> fields fuel (drop (Z.to_nat n) b)
            else None
          end
        else None
      end
    end
  end.

Definition put_string (num : Z) (s : string) : list Byte.byte :=
  if decide (s = "") then []
  else varint (num * 8 + 2) ++ varint (len s) ++ bytes_of s.
Definition put_int64 (num : Z) (z : Z) : list Byte.byte :=
  if z =? 0 then [] else varint (num * 8) ++ varint z.

Definition marshal_KeyValue (m : KeyValue) : list Byte.byte :=
  put_string 1 (Key m) ++ put_string 2 (Value m).
Definition marshal_IndexRecord (m : IndexRecord) : list Byte.byte :=
  put_string 1 (IKey m) ++ put_int64 2 (Offset m).

Definition merge_KeyValue (m : KeyValue) (f : Z * value) : KeyValue :=
  match f with
  | (1, Bytes b) => mkKeyValue (string_of b) (Value m)
  | (2, Bytes b) => mkKeyValue (Key m) (string_of b)
  | _ => m
  end.
Definition merge_IndexRecord (m : IndexRecord) (f : Z * value)
  : IndexRecord :=
  match f with
  | (1, Bytes b) => mkIndexRecord (string_of b) (Offset m)
  | (2, Varint z) => mkIndexRecord (IKey m) (int64 z)
  | _ => m
  end.

Definition unmarshal_KeyValue (b : list Byte.byte) (m : KeyValue)
  : KeyValue * option ext_error :=
  match fields (length b) b with
  | Some fs => (foldl merge_KeyValue m fs, None)
  | None => (m, Some (ExtError "proto: cannot parse"))
  end.
Definition unmarshal_IndexRecord (b : list Byte.byte) (m : IndexRecord)
  : IndexRecord * option ext_error :=
  match fields (length b) b with
  | Some fs => (foldl merge_IndexRecord m fs, None)
  | None => (m, Some (ExtError "proto: cannot parse"))
  end.
End Wire.

Global Instance wire_codec : ProtoCodec := {|
  proto_Marshal_KeyValue m := (Wire.marshal_KeyValue m, None);
  proto_Marshal_IndexRecord m := (Wire.marshal_IndexRecord m, None);
  proto_Size_IndexRecord m := Z.of_nat (length (Wire.marshal_IndexRecord m));
|}.

(** A KeyValue message in the role of a caller's [proto.Message]. *)
Global Instance KeyValue_message : ProtoMessage KeyValue := {|
  pb_Reset _ := mkKeyValue "" "";
  pb_Marshal m := (Wire.marshal_KeyValue m, None);
  pb_Unmarshal := Wire.unmarshal_KeyValue;
|}.

Module Mem.
(** A file holds whole frames; the cursor is a byte position.  A file
    whose [broken] is set reports that error from every call. *)
Record File : Type := mkFile {
  frames : list (list Byte.byte);
  pos : Z;
  seeker : bool;
  broken : option ext_error;
}.

Definition header : Z := 4.
Definition frame_size (payload : list Byte.byte) : Z :=
  header + Z.of_nat (length payload).
Definition size (fs : list (list Byte.byte)) : Z :=
  foldr (λ p n, frame_size p + n) 0 fs.

Inductive located : Type :=
| Frame (payload : list Byte.byte)
| AtEnd
| Inside.

(** The frame that starts at byte position [p]. *)
Fixpoint locate (fs : list (list Byte.byte)) (p : Z) : located :=
  match fs with
  | [] => if p <? 0 then Inside else AtEnd
  | payload :: fs =>
    if p =? 0 then Frame payload
    else if p <? frame_size payload then Inside
    else locate fs (p - frame_size payload)
  end.

Definition with_pos (p : Z) (f : File) : File :=
  mkFile (frames f) p (seeker f) (broken f).

Definition Read (f : File) (n : Z) : File * (Z * option ext_error) :=
  match broken f with
  | Some e => (f, (0, Some e))
  | None =>
    if size (frames f) <=? pos f then (f, (0, Some io_EOF))
    else
      let l := Z.min n (size (frames f) - pos f) in
      (with_pos (pos f + l) f, (l, None))
  end.

Definition Seek (f : File) (p : Z) : File * option ext_error :=
  match broken f with
  | Some e => (f, Some e)
  | None => (with_pos p f, None)
  end.

Definition Tell (f : File) : File * (Z * option ext_error) :=
  match broken f with
  | Some e => (f, (0, Some e))
  | None => (f, (pos f, None))
  end.


(** Writes append a frame and leave the cursor at the end. *)
Definition Write (f : File) (payload : list Byte.byte)
  : File * (Z * option ext_error) :=
  match broken f with
  | Some e => (f, (0, Some e))
  | None =>
    let fs := frames f ++ [payload] in
    (mkFile fs (size fs) (seeker f) None, (frame_size payload, None))
  end.

Definition ReadMessage {A : Type}
    (unmarshal : list Byte.byte → A → A * option ext_error) (zero : A)
    (f : File) : File * (A * option ext_error) :=
  match broken f with
  | Some e => (f, (zero, Some e))
  | None =>
    match locate (frames f) (pos f) with
    | AtEnd => (f, (zero, Some io_EOF))
    | Inside => (f, (zero, Some (ExtError "recordio: bad frame")))
    | Frame payload =>
      (with_pos (pos f + frame_size payload) f, unmarshal payload zero)
    end
  end.
End Mem.

Global Instance mem_filesystem : Filesystem Mem.File := {|
  fs_Read := Mem.Read;
  fs_Seeker := Mem.seeker;
  fs_Seek := Mem.Seek;
  fs_Tell := Mem.Tell;
  rio_Write := Mem.Write;
  rio_ReadKeyValue := Mem.ReadMessage Wire.unmarshal_KeyValue (mkKeyValue "" "");
  rio_ReadIndexRecord :=
    Mem.ReadMessage Wire.unmarshal_IndexRecord (mkIndexRecord "" 0);
|}.

(** Two iteration orders for [range]: by the map's own listing, and that
    listing backwards. *)
Definition range_listed : MapRange := λ V m, map_to_list m.
Definition range_backwards : MapRange := λ V m, reverse (map_to_list m).


(** ** What the statements below speak of *)

(** Order on keys, read off [strings.Compare]. *)
Definition key_lt (a b : string) : Prop := strings_Compare a b < 0.
Definition key_le (a b : string) : Prop := strings_Compare a b ≤ 0.

Section Streams.
Context {F : Type} {fs : Filesystem F}.

(** The index records a stream hands out until it reports [io.EOF]. *)
Fixpoint drain_index (fuel : nat) (idx : F)
  : option (list IndexRecord * F) :=
  match fuel with
  | O => None
  | S fuel =>
    let '(idx, (ir, err)) := rio_ReadIndexRecord idx in
    match err with
    | Some io_EOF => Some ([], idx)
    | Some _ => None
    | None =>
      match drain_index fuel idx with
      | Some (irs, idx) => Some (ir :: irs, idx)
      | None => None
      end
    end
  end.

(** The next [n] data records of a stream, all read without error. *)
Fixpoint next_records (n : nat) (i : F) : option (list KeyValue * F) :=
  match n with
  | O => Some ([], i)
  | S n =>
    let '(i, (rec, err)) := rio_ReadKeyValue i in
    match err with
    | Some _ => None
    | None =>
      match next_records n i with
      | Some (recs, i) => Some (rec :: recs, i)
      | None => None
      end
    end
  end.

(** The stream is at its end: the next read reports [io.EOF]. *)
Definition at_EOF (i i' : F) : Prop :=
  ∃ rec, rio_ReadKeyValue i = (i', (rec, Some io_EOF)).
End Streams.

Definition entry_of (ir : IndexRecord) : string * Z := (IKey ir, Offset ir).

(** [e] is an entry of [es] with the largest key strictly below [key]. *)
Definition floor_entry (es : list (string * Z)) (key : string)
    (e : string * Z) : Prop :=
  e ∈ es ∧ key_lt e.1 key ∧ ∀ e', e' ∈ es → key_lt e'.1 key → key_le e'.1 e.1.

(** The first entry of [es], in scan order, whose key is [key] has offset
    [off]. *)
Definition first_exact (es : list (string * Z)) (key : string) (off : Z)
  : Prop :=
  ∃ pre post, es = pre ++ (key, off) :: post ∧ ∀ e, e ∈ pre → e.1 ≠ key.

(** Floor search as the specification words it. *)
Definition floor_search_stated (es : list (string * Z)) (key : string)
    (off : Z) : Prop :=
  (∀ v, first_exact es key v → off = v) ∧
  ((∀ e, e ∈ es → e.1 ≠ key) →
     (∃ e, e ∈ es ∧ key_lt e.1 key) →
     ∃ e, floor_entry es key e ∧ off = e.2) ∧
  ((∀ e, e ∈ es → ¬ key_le e.1 key) → off = 0).

(** Floor search as the code runs it: an entry with the empty key never
    becomes the closest one. *)
Definition floor_search (es : list (string * Z)) (key : string) (off : Z)
  : Prop :=
  (∀ v, first_exact es key v → off = v) ∧
  ((∀ e, e ∈ es → e.1 ≠ key) →
     (∃ e, e ∈ es ∧ e.1 ≠ "" ∧ key_lt e.1 key) →
     ∃ e, floor_entry es key e ∧ off = e.2) ∧
  ((∀ e, e ∈ es → e.1 ≠ key) →
     (∀ e, e ∈ es → key_lt e.1 key → e.1 = "") → off = 0).

(** What the loop of indexLookup knows after the entries [seen]: none has
    the key looked for, and [closest_k], [closest_v] are still the zero
    values, no entry seen having a non-empty key below [key], or else an
    entry of [seen] with the largest key below [key]. *)
Definition closest_inv (seen : list (string * Z)) (key closest_k : string)
    (closest_v : Z) : Prop :=
  (∀ e, e ∈ seen → e.1 ≠ key) ∧
  ((closest_k = "" ∧ closest_v = 0 ∧
    ∀ e, e ∈ seen → key_lt e.1 key → e.1 = "") ∨
   (closest_k ≠ "" ∧ floor_entry seen key (closest_k, closest_v))).

Section ReaderNotions.
Context {F : Type} {fs : Filesystem F} {range : MapRange}.

(** A reader as NewReader makes it: no cache, no index stream, and an
    index cursor that is zero. *)
Definition without_index (r : Reader F) : Prop :=
  cache_entry_index r = false ∧ orig_in_idx r = None ∧ idx_offset r = 0.

(** The index entries a lookup has at hand, in the order it scans them:
    those of the cache, or else those the index stream holds from its
    beginning (the stream as it is when the cursor is not past the
    start, otherwise after [Seek(ctx, 0)]). *)
Definition index_entries (fuel : nat) (r : Reader F)
  : option (list (string * Z)) :=
  if cache_entry_index r then Some (go_range (entry_index_cache r))
  else
    match orig_in_idx r with
    | Some idx =>
      let idx := if 0 <? idx_offset r then (fs_Seek idx 0).1 else idx in
      match drain_index fuel idx with
      | Some (irs, _) => Some (entry_of <$> irs)
      | None => None
      end
    | None => None
    end.
End ReaderNotions.

(** ** Further notions: what streams hold, and laws of well-behaved streams *)

Section MoreNotions.
Context {F : Type} {fs : Filesystem F} {codec : ProtoCodec}.

(** The index records a stream hands out until a read reports an error,
    and that error ([io.EOF] when the stream just ends). *)
Fixpoint read_index (fuel : nat) (idx : F)
  : option (list IndexRecord * ext_error * F) :=
  match fuel with
  | O => None
  | S fuel =>
    let '(idx, (ir, err)) := rio_ReadIndexRecord idx in
    match err with
    | Some e => Some ([], e, idx)
    | None =>
      match read_index fuel idx with
      | Some (irs, e, idx) => Some (ir :: irs, e, idx)
      | None => None
      end
    end
  end.

(** The same for the data records of a stream. *)
Fixpoint read_records (fuel : nat) (i : F)
  : option (list KeyValue * ext_error * F) :=
  match fuel with
  | O => None
  | S fuel =>
    let '(i, (rec, err)) := rio_ReadKeyValue i in
    match err with
    | Some e => Some ([], e, i)
    | None =>
      match read_records fuel i with
      | Some (recs, e, i) => Some (rec :: recs, e, i)
      | None => None
      end
    end
  end.

(** Tell is a query: it leaves the stream as it is. *)
Definition tell_pure : Prop := ∀ s : F, (fs_Tell s).1 = s.

(** A read hands out no more bytes than asked for, and no negative count. *)
Definition read_bounded : Prop :=
  ∀ (s : F) (n : Z), 0 < n → 0 ≤ (fs_Read s n).2.1 ≤ n.

(** A stream that always has more: a read of [n > 0] bytes reports no
    error and hands out at least one byte. *)
Definition read_progress : Prop :=
  ∀ (s : F) (n : Z), 0 < n →
    (fs_Read s n).2.2 = None ∧ 0 < (fs_Read s n).2.1.

(** A caller's loop: WriteString for each record in turn, until one call
    does not succeed. *)
Fixpoint WriteString_each (w : Writer F) (kvs : list (string * string))
  : exec (Writer F * option error) :=
  match kvs with
  | [] => Done (w, None)
  | (k, v) :: kvs =>
    match WriteString w k v with
    | Done (w, None) => WriteString_each w kvs
    | r => r
    end
  end.
End MoreNotions.

(** The map that assigning [m[ir.Key] = ir.Offset] for each record in turn
    leaves. *)
Definition cache_of (irs : list IndexRecord) (m : gmap string Z)
  : gmap string Z :=
  foldl (λ m ir, <[IKey ir := Offset ir]> m) m irs.

(** The map that assigning [rv[rec.Key] = f rec] for each record in turn
    leaves. *)
Definition assign_all {V : Type} (f : KeyValue → V) (recs : list KeyValue)
    (rv : gmap string V) : gmap string V :=
  foldl (λ m rec, <[Key rec := f rec]> m) rv recs.

(** The prefix the PREFIXLEN policy takes of a key. *)
Definition index_prefix (n : Z) (key : string) : string :=
  if len key <=? n then key else String.substring 0 (Z.to_nat n) key.

(** What a read loop returns for the error that ended it. *)
Definition nil_on_EOF (e : ext_error) : option error :=
  match e with
  | io_EOF => None
  | e => Some (External e)
  end.

Global Instance key_lt_dec : RelDecision key_lt.
Proof. intros a b. unfold key_lt. apply _. Defined.
Global Instance key_le_dec : RelDecision key_le.
Proof. intros a b. unfold key_le. apply _. Defined.

(** ** Concrete tables and streams *)

Module Sample.
(** An empty in-memory file, with or without the Seeker side. *)
Definition empty_file (seeker : bool) : Mem.File :=
  Mem.mkFile [] 0 seeker None.

(** A file on which every call fails. *)
Definition disk_full : ext_error := ExtError "disk full".
Definition broken_file : Mem.File := Mem.mkFile [] 0 true (Some disk_full).

(** The records of the scenario, and the table a writer makes of them. *)
Definition records : list (string * string) :=
  [("aaa", "foo"); ("aab", "bar"); ("mmm", "baz")].

Definition data_file (seeker : bool) : Mem.File :=
  Mem.mkFile
    ((λ kv, Wire.marshal_KeyValue (mkKeyValue kv.1 kv.2)) <$> records)
    0 seeker None.


(** A table whose first two keys are empty, written with an index entry
    every second record, and the reader of it. *)
Definition empty_keys_data : Mem.File :=
  Mem.mkFile
    ((λ kv, Wire.marshal_KeyValue (mkKeyValue kv.1 kv.2))
       <$> [("", "a"); ("", "b"); ("x", "c")])
    0 true None.
Definition empty_keys_index : Mem.File :=
  Mem.mkFile [Wire.marshal_IndexRecord (mkIndexRecord "" 7)] 0 true None.
Definition empty_keys_reader : Reader Mem.File :=
  mkReader empty_keys_data 0 (Some empty_keys_index) 0 false ∅.

(** An index stream of one entry, read once to its end: the cursor of
    the reader is past the start. *)
Definition index_file (seeker : bool) : Mem.File :=
  Mem.mkFile [Wire.marshal_IndexRecord (mkIndexRecord "aab" 14)]
    11 seeker None.
Definition indexed_reader (seeker : bool) : Reader Mem.File :=
  mkReader (data_file true) 0 (Some (index_file seeker)) 7 false ∅.

(** [WriteString] over a list of records, stopping at the first error. *)
Fixpoint write_all (w : Writer Mem.File) (kvs : list (string * string))
  : exec (Writer Mem.File * option error) :=
  match kvs with
  | [] => Done (w, None)
  | (k, v) :: kvs =>
    match WriteString w k v with
    | Done (w, None) => write_all w kvs
    | r => r
    end
  end.

(** The scenario: a writer that indexes every second record, the writer
    after the first [n] records, and the reader of the finished table
    (both files closed, which resets their position). *)
Definition scenario_writer : Writer Mem.File :=
  NewIndexedWriter (empty_file true) (empty_file true) IndexType_EVERY_N 2.
Definition after (n : nat) : Writer Mem.File :=
  match write_all scenario_writer (take n records) with
  | Done (w, _) => w
  | Panic _ => scenario_writer
  end.

(** A message a caller hands to ReadProto, with old content in it. *)
Definition stale_message : KeyValue := mkKeyValue "old" "content".

(** The sample table with a record of empty value for the key "zzz". *)
Definition data_file_empty_value : Mem.File :=
  Mem.mkFile
    ((λ kv, Wire.marshal_KeyValue (mkKeyValue kv.1 kv.2))
       <$> (records ++ [("zzz", "")]))
    0 true None.

(** A map of two messages, for WriteProtoMap. *)
Definition two_messages : gmap string KeyValue :=
  {[ "a" := mkKeyValue "x" "1"; "b" := mkKeyValue "y" "2" ]}.
End Sample.

(** ** A stream that never ends, and more sample streams *)

Module Endless.
(** A stream of bytes without end and without Seeker: its state is the
    number of bytes handed out.  It holds no records. *)
Record Stream : Type := mkStream { taken : Z }.

Definition Read (s : Stream) (n : Z) : Stream * (Z * option ext_error) :=
  (mkStream (taken s + n), (n, None)).

Definition unsupported : ext_error := ExtError "not supported".
End Endless.

Global Instance endless_filesystem : Filesystem Endless.Stream := {|
  fs_Read := Endless.Read;
  fs_Seeker _ := false;
  fs_Seek s _ := (s, Some Endless.unsupported);
  fs_Tell s := (s, (0, Some Endless.unsupported));
  rio_Write s _ := (s, (0, Some Endless.unsupported));
  rio_ReadKeyValue s := (s, (mkKeyValue "" "", Some Endless.unsupported));
  rio_ReadIndexRecord s := (s, (mkIndexRecord "" 0, Some Endless.unsupported));
|}.

Module More.
(** An index stream in which the key "a" comes twice. *)
Definition repeated_index : Mem.File :=
  Mem.mkFile
    (Wire.marshal_IndexRecord
       <$> [mkIndexRecord "a" 1; mkIndexRecord "b" 2; mkIndexRecord "a" 3])
    0 true None.

(** An index stream of distinct keys. *)
Definition distinct_index : Mem.File :=
  Mem.mkFile
    (Wire.marshal_IndexRecord
       <$> [mkIndexRecord "aab" 14; mkIndexRecord "mmm" 28])
    0 true None.


(** A small map for WriteStringMap. *)
Definition small_map : gmap string string :=
  {[ "b" := "2"; "a" := "1"; "c" := "3" ]}.

(** A reader with a cache, as NewReaderWithIdx leaves it. *)
Definition cached_reader : Reader Mem.File :=
  mkReader (Sample.data_file true) 0 (Some distinct_index) 0 true
    {[ "aab" := 14; "mmm" := 28 ]}.
End More.

(** ** Facts on the order of keys *)

Lemma compare_refl (a : string) : String.compare a a = Eq.
Proof.
  induction a as [|c a IH]; simpl; [done|].
  unfold Ascii.compare. by rewrite N.compare_refl.
Qed.

Lemma compare_Gt_Lt (a b : string) :
  String.compare a b = Gt ↔ String.compare b a = Lt.
Proof.
  rewrite (String.compare_antisym b a).
  destruct (String.compare a b); simpl; split; congruence.
Qed.

Lemma compare_Lt_le (a b : string) :
  String.compare a b = Lt ↔ String.le a b ∧ a ≠ b.
Proof.
  unfold String.le, String.leb. split.
  - intros H. rewrite H. split; [done|].
    intros ->. rewrite compare_refl in H. discriminate.
  - intros [Hle Hne]. destruct (String.compare a b) eqn:E; [|done|done].
    apply String.compare_eq_iff in E. contradiction.
Qed.

Lemma compare_Lt_trans (a b c : string) :
  String.compare a b = Lt → String.compare b c = Lt →
  String.compare a c = Lt.
Proof.
  rewrite !compare_Lt_le. intros [Hab Hne] [Hbc Hne']. split.
  - by trans b.
  - intros ->. apply Hne. by apply (anti_symm String.le).
Qed.

Lemma Compare_pos (a b : string) :
  (0 <? strings_Compare a b) = true ↔ String.compare a b = Gt.
Proof.
  unfold strings_Compare. destruct (String.compare a b); simpl; split;
    (done || congruence || lia).
Qed.

Lemma Compare_zero (a b : string) :
  (strings_Compare a b =? 0) = true ↔ a = b.
Proof.
  unfold strings_Compare. split.
  - destruct (String.compare a b) eqn:E; simpl; try discriminate.
    intros _. by apply String.compare_eq_iff.
  - intros ->. by rewrite compare_refl.
Qed.

Lemma key_lt_compare (a b : string) : key_lt a b ↔ String.compare a b = Lt.
Proof.
  unfold key_lt, strings_Compare.
  destruct (String.compare a b); split; (done || congruence || lia).
Qed.

Lemma key_le_compare (a b : string) : key_le a b ↔ String.compare a b ≠ Gt.
Proof.
  unfold key_le, strings_Compare.
  destruct (String.compare a b); split; (done || congruence || lia).
Qed.

Lemma key_lt_flip (a b : string) :
  key_lt a b ↔ (0 <? strings_Compare b a) = true.
Proof. by rewrite key_lt_compare, Compare_pos, compare_Gt_Lt. Qed.

Lemma key_lt_irrefl (a : string) : ¬ key_lt a a.
Proof. rewrite key_lt_compare, compare_refl. discriminate. Qed.

Lemma key_lt_trans (a b c : string) : key_lt a b → key_lt b c → key_lt a c.
Proof. rewrite !key_lt_compare. apply compare_Lt_trans. Qed.

Lemma key_le_refl (a : string) : key_le a a.
Proof. rewrite key_le_compare, compare_refl. discriminate. Qed.

Lemma key_le_lt_eq (a b : string) : key_le a b ↔ key_lt a b ∨ a = b.
Proof.
  rewrite key_le_compare, key_lt_compare. split.
  - destruct (String.compare a b) eqn:E; [|by left|done].
    right. by apply String.compare_eq_iff.
  - intros [->| ->]; [done|]. by rewrite compare_refl.
Qed.

Lemma key_le_total (a b : string) : key_le a b ∨ key_lt b a.
Proof.
  rewrite key_le_compare, (key_lt_compare b a), <- compare_Gt_Lt.
  destruct (String.compare a b); auto.
Qed.

Lemma key_lt_le_trans (a b c : string) : key_lt a b → key_le b c → key_lt a c.
Proof.
  rewrite key_le_lt_eq. intros ? [?| <-]; [|done]. by eapply key_lt_trans.
Qed.

Lemma key_le_lt_trans (a b c : string) : key_le a b → key_lt b c → key_lt a c.
Proof.
  rewrite key_le_lt_eq. intros [?| ->] ?; [|done]. by eapply key_lt_trans.
Qed.

Lemma key_le_trans (a b c : string) : key_le a b → key_le b c → key_le a c.
Proof.
  rewrite (key_le_lt_eq a b). intros [?| ->] ?; [|done].
  apply key_le_lt_eq. left. by eapply key_lt_le_trans.
Qed.

Lemma key_lt_not_le (a b : string) : key_lt a b ↔ ¬ key_le b a.
Proof.
  rewrite key_lt_compare, key_le_compare, <- compare_Gt_Lt.
  destruct (String.compare b a); split; intros H; try done;
    first [ by intros H'; apply H' | by exfalso; apply H ].
Qed.

Lemma key_le_String_le (a b : string) : key_le a b ↔ String.le a b.
Proof.
  rewrite key_le_compare. unfold String.le, String.leb.
  destruct (String.compare a b); simpl; split; (done || congruence).
Qed.

(** The empty key sorts before every other key. *)
Lemma empty_key_least (k : string) : key_le "" k.
Proof. rewrite key_le_compare. by destruct k. Qed.

Lemma key_lt_empty (k : string) : key_lt "" k ↔ k ≠ "".
Proof. rewrite key_lt_compare. destruct k; simpl; split; done. Qed.

(** ** The Writer: order of keys, failures, the cursor *)

Section WriterFacts.
Context {F : Type} {fs : Filesystem F} {codec : ProtoCodec}.
Implicit Types (w : Writer F) (key value : string).

Lemma emitIndexRecord_error w idx k w' e :
  emitIndexRecord w idx k = (w', Some e) → ∃ x, e = External x.
Proof.
  unfold emitIndexRecord. intros H.
  repeat case_match; simplify_eq; eauto.
Qed.

Lemma emitIndexRecord_fields w idx k w' r :
  emitIndexRecord w idx k = (w', r) →
  out w' = out w ∧ out_seek w' = out_seek w ∧ last_key w' = last_key w ∧
  index_offset w' = index_offset w.
Proof.
  unfold emitIndexRecord. intros H.
  repeat case_match; simplify_eq; done.
Qed.

Lemma generateIndexEntry_error w key w' e :
  generateIndexEntry w key = Done (w', Some e) →
  e = Err_UnsupportedIndexType ∨ ∃ x, e = External x.
Proof.
  unfold generateIndexEntry. intros H.
  repeat case_match; simplify_eq; eauto using emitIndexRecord_error.
Qed.

Lemma generateIndexEntry_fields w key w' r :
  generateIndexEntry w key = Done (w', r) →
  out w' = out w ∧ out_seek w' = out_seek w ∧ last_key w' = last_key w ∧
  index_offset w' = index_offset w.
Proof.
  unfold generateIndexEntry. intros H.
  repeat case_match; simplify_eq; try done;
    match goal with
    | H : emitIndexRecord _ _ _ = _ |- _ =>
        by apply emitIndexRecord_fields in H
    end.
Qed.

Lemma updateCounters_fields w n :
  out_seek (updateCounters w n) = out_seek w ∧
  last_key (updateCounters w n) = last_key w ∧
  out_idx (updateCounters w n) = out_idx w.
Proof. unfold updateCounters. repeat case_match; done. Qed.

(** Without a Seeker the counters are left as they are. *)
Lemma updateCounters_no_seeker w n :
  out_seek w = false → updateCounters w n = w.
Proof. unfold updateCounters. by intros ->. Qed.

(** With a Seeker whose Tell works, the cursor is what Tell reports. *)
Lemma updateCounters_tell w n o' p :
  out_seek w = true → fs_Tell (out w) = (o', (p, None)) →
  index_offset (updateCounters w n) = p.
Proof. unfold updateCounters. by intros -> ->. Qed.

(** With a Seeker whose Tell fails, the cursor moves by the length. *)
Lemma updateCounters_tell_fails w n o' p e :
  out_seek w = true → fs_Tell (out w) = (o', (p, Some e)) →
  index_offset (updateCounters w n) = int64 (index_offset w + n).
Proof. unfold updateCounters. by intros -> ->. Qed.

Lemma WriteString_in_order w key value :
  (0 <? strings_Compare (last_key w) key) = false →
  ∀ w', WriteString w key value ≠ Done (w', Some Err_KeyOrderViolation).
Proof.
  intros Hord w' H. unfold WriteString in H. rewrite Hord in H.
  repeat case_match; simplify_eq.
  match goal with
  | H : generateIndexEntry _ _ = _ |- _ =>
      destruct (generateIndexEntry_error _ _ _ _ H) as [?|[? ?]]; done
  end.
Qed.

(** A write that succeeds leaves its key as the last key. *)
Lemma WriteString_last_key w key value w' :
  WriteString w key value = Done (w', None) → last_key w' = key.
Proof.
  unfold WriteString. intros H. repeat case_match; simplify_eq.
  match goal with
  | H : generateIndexEntry _ _ = _ |- _ =>
      destruct (generateIndexEntry_fields _ _ _ _ H) as (_ & _ & Hk & _)
  end.
  by rewrite (proj1 (proj2 (updateCounters_fields _ _))), Hk.
Qed.

(** C2. WriteString returns the key order violation exactly when the new
    key is strictly less than the last key written; an equal key, and any
    key on a writer whose last key is still empty (a new writer), never
    gives it; and a violation hands the writer back as it was, streams
    included: nothing is appended and no field changes. *)
Theorem WriteString_key_order w key value :
  ((∃ w', WriteString w key value = Done (w', Some Err_KeyOrderViolation))
     ↔ key_lt key (last_key w)) ∧
  (key_lt key (last_key w) →
     WriteString w key value = Done (w, Some Err_KeyOrderViolation)) ∧
  (key = last_key w ∨ last_key w = "" ∨
     (∃ o, w = NewWriter o) ∨
     (∃ o o_idx t n, w = NewIndexedWriter o o_idx t n) →
     ∀ w', WriteString w key value ≠ Done (w', Some Err_KeyOrderViolation)).
Proof.
  assert (Hviol : key_lt key (last_key w) →
            WriteString w key value = Done (w, Some Err_KeyOrderViolation)).
  { intros H%key_lt_flip. unfold WriteString. by rewrite H. }
  assert (Hok : ¬ key_lt key (last_key w) →
            ∀ w', WriteString w key value
                  ≠ Done (w', Some Err_KeyOrderViolation)).
  { intros H. apply WriteString_in_order.
    rewrite key_lt_flip in H. by destruct (0 <? _). }
  split; [|split]; [|done|].
  - split; [|eauto]. intros [w' H].
    destruct (key_le_total (last_key w) key) as [Hle|Hlt]; [|done].
    exfalso. refine (Hok _ w' H). intros Hlt.
    by apply key_lt_not_le in Hlt.
  - intros Hcase. apply Hok.
    assert (last_key w = "" → ¬ key_lt key (last_key w)) as Hempty.
    { intros ->. intros H'%key_lt_not_le. apply H', empty_key_least. }
    destruct Hcase as [->|[?|[[o ->]|(o & oi & t & n & ->)]]].
    + apply key_lt_irrefl.
    + auto.
    + apply Hempty. unfold NewWriter. by destruct (initial_offset o).
    + apply Hempty. unfold NewIndexedWriter. by destruct (initial_offset o).
Qed.
End WriterFacts.

Section WriterFailures.
Context {F : Type} {fs : Filesystem F} {codec : ProtoCodec}.
Implicit Types (w : Writer F) (key value : string).

(** C6, as the code has it.  When the key is in order and the record
    cannot be marshalled or written, WriteString returns the error of the
    codec or of the stream as it is, and no field of the writer is
    touched: the last key and the write cursor stay what they were; only
    the data stream is in the state the failed write left it in. *)
Theorem WriteString_write_fails w key value (record : list Byte.byte) :
  ¬ key_lt key (last_key w) →
  (∀ e, proto_Marshal_KeyValue (mkKeyValue key value) = (record, Some e) →
        WriteString w key value = Done (w, Some (External e))) ∧
  (∀ o' n e,
     proto_Marshal_KeyValue (mkKeyValue key value) = (record, None) →
     rio_Write (out w) record = (o', (n, Some e)) →
     WriteString w key value = Done (set_out o' w, Some (External e)) ∧
     last_key (set_out o' w) = last_key w ∧
     index_offset (set_out o' w) = index_offset w).
Proof.
  intros Hord. rewrite key_lt_flip in Hord.
  assert ((0 <? strings_Compare (last_key w) key) = false) as Hcmp
    by by destruct (0 <? _).
  split.
  - intros e Hm. unfold WriteString. by rewrite Hcmp, Hm.
  - intros o' n e Hm Hw. unfold WriteString. by rewrite Hcmp, Hm, Hw.
Qed.

(** A writer without a Seeker never moves its cursor. *)
Lemma WriteString_no_seeker w key value w' :
  out_seek w = false → WriteString w key value = Done (w', None) →
  index_offset w' = index_offset w.
Proof.
  intros Hs. unfold WriteString. intros H. repeat case_match; simplify_eq.
  match goal with
  | H : generateIndexEntry _ _ = _ |- _ =>
      destruct (generateIndexEntry_fields _ _ _ _ H) as (_ & Hs' & _ & Ho)
  end.
  rewrite updateCounters_no_seeker; [by rewrite Ho|by rewrite Hs'].
Qed.
End WriterFailures.

(** C6 on the broken file: the write of ["aaa"] fails. *)
Lemma WriteString_write_fails_witness :
  WriteString (NewWriter Sample.broken_file) "aaa" "foo"
  = Done (set_out Sample.broken_file (NewWriter Sample.broken_file),
          Some (External Sample.disk_full)) ∧
  last_key (set_out Sample.broken_file (NewWriter Sample.broken_file))
  = last_key (NewWriter Sample.broken_file) ∧
  index_offset (set_out Sample.broken_file (NewWriter Sample.broken_file))
  = index_offset (NewWriter Sample.broken_file).
Proof.
  apply (WriteString_write_fails (NewWriter Sample.broken_file) "aaa" "foo"
           (Wire.marshal_KeyValue (mkKeyValue "aaa" "foo"))) with (n := 0).
  - vm_compute. discriminate.
  - reflexivity.
  - reflexivity.
Defined.

(** C6 as stated fails: after the failed write of ["aaa"] the last key is
    not ["aaa"], and the cursor is where it was. *)
Lemma WriteString_write_fails_last_key_kept :
  ∃ w', WriteString (NewWriter Sample.broken_file) "aaa" "foo"
        = Done (w', Some (External Sample.disk_full)) ∧
        last_key w' ≠ "aaa" ∧
        index_offset w' = index_offset (NewWriter Sample.broken_file).
Proof. eexists. split; [reflexivity|]. split; [discriminate|reflexivity]. Qed.

(** C5 at a stream that is no Seeker: the record of ["aaa"] takes 14 bytes,
    the write succeeds, and the cursor is still 0. *)
Theorem WriteString_no_seeker_cursor_stays :
  fs_Seeker (Sample.empty_file false) = false ∧
  ∃ w', WriteString (NewWriter (Sample.empty_file false)) "aaa" "foo"
        = Done (w', None) ∧
        Mem.size (Mem.frames (out w')) = 14 ∧
        index_offset (NewWriter (Sample.empty_file false)) = 0 ∧
        index_offset w' = 0.
Proof. split; [reflexivity|]. eexists. split; [reflexivity|]. done. Qed.

(** ** Batch writes *)

Lemma range_listed_lawful : range_lawful (range := range_listed).
Proof. by intros V m. Qed.

Lemma range_backwards_lawful : range_lawful (range := range_backwards).
Proof. intros V m. apply reverse_Permutation. Qed.

Section BatchWrites.
Context {F : Type} {fs : Filesystem F} {codec : ProtoCodec}
        {range : MapRange}.
Implicit Types (w : Writer F) (keys : list string).

Lemma sort_Strings_sorted keys : StronglySorted String.le (sort_Strings keys).
Proof. apply StronglySorted_merge_sort; apply _. Qed.

Lemma sort_Strings_perm keys : sort_Strings keys ≡ₚ keys.
Proof. apply merge_sort_Permutation. Qed.

(** Keys written in ascending order, none below the last key of the
    writer, never meet the order check. *)
Lemma WriteStringMap_loop_in_order w data keys :
  StronglySorted String.le keys →
  Forall (key_le (last_key w)) keys →
  ∀ w', WriteStringMap_loop w data keys
        ≠ Done (w', Some Err_KeyOrderViolation).
Proof.
  intros Hs. revert w. induction Hs as [|k keys Hs IH Hk]; intros w Hw w'.
  - done.
  - simpl. destruct (WriteString w k _) as [[w1 [e|]]|] eqn:E; [| |done].
    + intros [= -> ->]. revert E. apply WriteString_in_order.
      apply Forall_cons_1 in Hw as [Hle _].
      apply key_le_compare in Hle. rewrite <- Compare_pos in Hle.
      by destruct (0 <? _).
    + apply IH. apply WriteString_last_key in E as ->.
      eapply Forall_impl; [exact Hk|]. intros k'.
      by rewrite key_le_String_le.
Qed.

(** WriteStringMap on a writer that has written nothing yet never returns
    the key order violation, in whatever order the map is visited. *)
Lemma WriteStringMap_no_order_violation w (data : gmap string string) :
  last_key w = "" →
  ∀ w', WriteStringMap w data ≠ Done (w', Some Err_KeyOrderViolation).
Proof.
  intros Hk. unfold WriteStringMap.
  apply WriteStringMap_loop_in_order; [apply sort_Strings_sorted|].
  rewrite Hk. apply Forall_forall. intros k _. apply empty_key_least.
Qed.

(** WriteStringMap hands the keys to WriteString in ascending order. *)
Lemma WriteStringMap_ascending w (data : gmap string string) :
  WriteStringMap w data
  = WriteStringMap_loop w data (sort_Strings (go_range data).*1) ∧
  StronglySorted String.le (sort_Strings (go_range data).*1) ∧
  (range_lawful → ∀ k, k ∈ sort_Strings (go_range data).*1 ↔
                       is_Some (data !! k)).
Proof.
  split; [done|]. split; [apply sort_Strings_sorted|].
  intros Hlaw k. rewrite sort_Strings_perm, (Hlaw _ data).
  rewrite list_elem_of_fmap. split.
  - intros [[k' v] [-> H%elem_of_map_to_list]]. by exists v.
  - intros [v H]. exists (k, v). by rewrite elem_of_map_to_list.
Qed.
End BatchWrites.

(** C4 at WriteProtoMap: the map is visited in an order that range may
    take, "b" before "a"; the keys are not sorted first and the second
    write is refused. *)
Theorem WriteProtoMap_order_violation :
  range_lawful (range := range_backwards) ∧
  (@go_range range_backwards _ Sample.two_messages).*1
  = ["b"; "a"] ∧
  ∃ w', WriteProtoMap (range := range_backwards)
          (NewWriter (Sample.empty_file true)) Sample.two_messages
        = Done (w', Some Err_KeyOrderViolation).
Proof.
  split; [apply range_backwards_lawful|].
  split; [reflexivity|]. eexists. vm_compute. reflexivity.
Qed.

(** ** The Reader without an index, and the rewind of the index stream *)

Section ReaderFacts.
Context {F : Type} {fs : Filesystem F} {codec : ProtoCodec}
        {range : MapRange}.
Implicit Types (r : Reader F) (key : string).

Lemma NewReader_without_index (i : F) : without_index (NewReader i).
Proof. done. Qed.







(** C8.  An index lookup on the on-disk index that starts with the index
    cursor past the start: on a stream that is no Seeker it returns
    Err_NotSeeker and the reader as it was, no entry read; on a Seeker it
    is the scan of the stream [Seek(ctx, 0)] leaves, with the index cursor
    back at zero. *)
Theorem indexLookup_rewind fuel r idx key :
  cache_entry_index r = false → orig_in_idx r = Some idx →
  0 < idx_offset r →
  (fs_Seeker idx = false →
     indexLookup fuel r key = Some (r, (0, Some Err_NotSeeker))) ∧
  (fs_Seeker idx = true →
     idx_offset (set_idx_offset 0 (set_orig_in_idx (fs_Seek idx 0).1 r)) = 0 ∧
     indexLookup fuel r key
     = indexLookup_disk fuel
         (set_idx_offset 0 (set_orig_in_idx (fs_Seek idx 0).1 r))
         (fs_Seek idx 0).1 key "" 0).
Proof.
  intros Hc Hi Ho. apply Z.ltb_lt in Ho. unfold indexLookup.
  rewrite Hc, Hi, Ho. split; intros ->; simpl; [done|].
  split; [done|]. by destruct (fs_Seek idx 0).
Qed.
End ReaderFacts.



(** C8 on an index stream read to its end, without and with a Seeker. *)
Lemma indexLookup_rewind_witness :
  indexLookup (range := range_listed) 3 (Sample.indexed_reader false) "mmm"
  = Some (Sample.indexed_reader false, (0, Some Err_NotSeeker)) ∧
  indexLookup (range := range_listed) 3 (Sample.indexed_reader true) "mmm"
  = indexLookup_disk 3
      (set_idx_offset 0
         (set_orig_in_idx (fs_Seek (Sample.index_file true) 0).1
            (Sample.indexed_reader true)))
      (fs_Seek (Sample.index_file true) 0).1 "mmm" "" 0.
Proof.
  split.
  - apply (indexLookup_rewind (range := range_listed) 3
             (Sample.indexed_reader false) (Sample.index_file false) "mmm");
      [reflexivity|reflexivity|simpl; lia|reflexivity].
  - apply (indexLookup_rewind (range := range_listed) 3
             (Sample.indexed_reader true) (Sample.index_file true) "mmm");
      [reflexivity|reflexivity|simpl; lia|reflexivity].
Defined.

(** ** The index lookup is a floor search *)

Lemma key_le_empty (k : string) : key_le k "" → k = "".
Proof.
  rewrite key_le_lt_eq. intros [H|H]; [|done].
  apply key_lt_not_le in H. destruct H. apply empty_key_least.
Qed.

Lemma first_exact_unique (seen rest pre post : list (string * Z)) key v v' :
  seen ++ (key, v) :: rest = pre ++ (key, v') :: post →
  (∀ e, e ∈ seen → e.1 ≠ key) → (∀ e, e ∈ pre → e.1 ≠ key) → v = v'.
Proof.
  revert pre. induction seen as [|a seen IH]; intros [|b pre] E Hs Hp;
    simplify_eq/=.
  - done.
  - destruct (Hp (key, v)); [left|done].
  - destruct (Hs (key, v')); [left|done].
  - eapply IH; [done| |].
    + intros e He. apply Hs. by right.
    + intros e He. apply Hp. by right.
Qed.

Lemma closest_inv_start key : closest_inv [] key "" 0.
Proof.
  split; [by intros e ?%elem_of_nil|].
  left. repeat split. by intros e ?%elem_of_nil.
Qed.

(** The entry read has a key below [key] and above the closest one. *)
Lemma closest_inv_closer seen key ck cv k v :
  closest_inv seen key ck cv → key_lt k key → key_lt ck k →
  closest_inv (seen ++ [(k, v)]) key k v.
Proof.
  intros [Hne Hc] Hlt Hck. split.
  - intros e [He| ->%list_elem_of_singleton]%elem_of_app; [by apply Hne|].
    simpl. intros ->. by apply key_lt_irrefl in Hlt.
  - right. split.
    { intros ->. apply key_lt_not_le in Hck. apply Hck, empty_key_least. }
    split; [|split]; [apply elem_of_app; right; by left|done|].
    intros e [He| ->%list_elem_of_singleton]%elem_of_app Hek;
      [|apply key_le_refl].
    destruct Hc as [(-> & _ & Hall)|[_ (_ & _ & Hmax)]].
    + rewrite (Hall e He Hek). apply empty_key_least.
    + apply key_le_lt_eq. left.
      eapply key_le_lt_trans; [by apply Hmax|done].
Qed.

(** The entry read has a key below [key] but not above the closest one. *)
Lemma closest_inv_not_closer seen key ck cv k v :
  closest_inv seen key ck cv → key_lt k key → ¬ key_lt ck k →
  closest_inv (seen ++ [(k, v)]) key ck cv.
Proof.
  intros [Hne Hc] Hlt Hck.
  assert (key_le k ck) as Hle by (destruct (key_le_total k ck); done).
  split.
  - intros e [He| ->%list_elem_of_singleton]%elem_of_app; [by apply Hne|].
    simpl. intros ->. by apply key_lt_irrefl in Hlt.
  - destruct Hc as [(-> & -> & Hall)|[Hnonempty (Hin & Hlt' & Hmax)]].
    + left. repeat split.
      intros e [He| ->%list_elem_of_singleton]%elem_of_app Hek;
        [by apply Hall|by apply key_le_empty].
    + right. split; [done|].
      split; [|split]; [apply elem_of_app; by left|done|].
      intros e [He| ->%list_elem_of_singleton]%elem_of_app Hek;
        [by apply Hmax|done].
Qed.

(** The entry read has a key above [key]. *)
Lemma closest_inv_skip seen key ck cv k v :
  closest_inv seen key ck cv → ¬ key_lt k key → k ≠ key →
  closest_inv (seen ++ [(k, v)]) key ck cv.
Proof.
  intros [Hne Hc] Hlt Hk. split.
  - by intros e [He| ->%list_elem_of_singleton]%elem_of_app; [apply Hne|].
  - destruct Hc as [(-> & -> & Hall)|[Hnonempty (Hin & Hlt' & Hmax)]].
    + left. repeat split.
      intros e [He| ->%list_elem_of_singleton]%elem_of_app Hek;
        [by apply Hall|done].
    + right. split; [done|].
      split; [|split]; [apply elem_of_app; by left|done|].
      intros e [He| ->%list_elem_of_singleton]%elem_of_app Hek;
        [by apply Hmax|done].
Qed.

(** The loop over the cached entries keeps [closest_inv] and ends in a
    floor search over all of them. *)
Lemma indexLookup_cache_floor (es : list (string * Z)) key :
  ∀ seen ck cv,
    closest_inv seen key ck cv →
    floor_search (seen ++ es) key (indexLookup_cache es key ck cv).
Proof.
  induction es as [|[k v] es IH]; intros seen ck cv Hinv.
  - rewrite app_nil_r. destruct Hinv as [Hne Hc]. simpl.
    split; [|split].
    + intros v' (pre & post & -> & _). destruct (Hne (key, v')); [|done].
      apply elem_of_app. right. by left.
    + intros _ (e & He & Hnonempty & Hlt).
      destruct Hc as [(_ & _ & Hall)|[_ Hfl]]; [|by exists (ck, cv)].
      by specialize (Hall e He Hlt).
    + intros _ Hall. destruct Hc as [(_ & -> & _)|[Hck (Hin & Hlt & _)]];
        [done|]. by specialize (Hall _ Hin Hlt).
  - simpl. destruct (0 <? strings_Compare key k) eqn:Hgt.
    + apply key_lt_flip in Hgt. rewrite (cons_middle _ seen es), app_assoc.
      destruct (0 <? strings_Compare k ck) eqn:Hcl; apply IH.
      * apply key_lt_flip in Hcl. by eapply closest_inv_closer.
      * eapply closest_inv_not_closer; [done..|].
        rewrite key_lt_flip, Hcl. discriminate.
    + assert (¬ key_lt k key) as Hnlt
        by (rewrite key_lt_flip, Hgt; discriminate).
      destruct (strings_Compare key k =? 0) eqn:Heq.
      * apply Compare_zero in Heq as <-. destruct Hinv as [Hne _].
        split; [|split].
        -- intros v' (pre & post & E & Hpre). by eapply first_exact_unique.
        -- intros Hno. destruct (Hno (key, v)); [|done].
           apply elem_of_app. right. by left.
        -- intros Hno. destruct (Hno (key, v)); [|done].
           apply elem_of_app. right. by left.
      * rewrite (cons_middle _ seen es), app_assoc. apply IH.
        eapply closest_inv_skip; [done..|].
        intros ->. rewrite (proj2 (Compare_zero _ _) eq_refl) in Heq. done.
Qed.

Section IndexLookup.
Context {F : Type} {fs : Filesystem F} {codec : ProtoCodec}
        {range : MapRange}.
Implicit Types (r : Reader F) (key : string).

(** On an index stream that ends, the loop over the stream computes what
    the loop over a cache of the same entries computes. *)
Lemma indexLookup_disk_cache fuel :
  ∀ r idx irs idx' key ck cv,
    drain_index fuel idx = Some (irs, idx') →
    ∃ r', indexLookup_disk fuel r idx key ck cv
          = Some (r', (indexLookup_cache (entry_of <$> irs) key ck cv,
                       None)).
Proof.
  induction fuel as [|fuel IH]; intros r idx irs idx' key ck cv; [done|].
  simpl. destruct (rio_ReadIndexRecord idx) as [idx1 [ir [[|code]|]]].
  - intros [= <- <-]. by eexists.
  - done.
  - destruct (drain_index fuel idx1) as [[irs1 idx2]|] eqn:E; [|done].
    intros [= <- <-]. simpl. unfold entry_of at 1.
    destruct (0 <? strings_Compare key (IKey ir)).
    + destruct (0 <? strings_Compare (IKey ir) ck); by eapply IH.
    + destruct (strings_Compare key (IKey ir) =? 0); [by eexists|].
      by eapply IH.
Qed.

(** C1, as the code has it.  The lookup scans the entries at hand: those
    of the cache, or those the index stream holds from its beginning.  It
    returns the offset of the first entry whose key is the target; or
    else, when some entry has a non-empty key below the target, the
    offset of an entry with the largest key below the target; or else 0.
    With a lawful [range] the entries of the cache are those of the
    map. *)
Theorem indexLookup_floor_search fuel r key es :
  index_entries fuel r = Some es →
  (cache_entry_index r = false → 0 < idx_offset r →
     ∃ idx, orig_in_idx r = Some idx ∧ fs_Seeker idx = true) →
  (∃ r' off, indexLookup fuel r key = Some (r', (off, None)) ∧
             floor_search es key off) ∧
  (cache_entry_index r = true → range_lawful →
     ∀ k v, (k, v) ∈ es ↔ entry_index_cache r !! k = Some v).
Proof.
  unfold index_entries, indexLookup. intros Hes Hseek.
  destruct (cache_entry_index r) eqn:Hc.
  - injection Hes as <-. split.
    + eexists _, _. split; [done|].
      apply (indexLookup_cache_floor _ key [] "" 0), closest_inv_start.
    + intros _ Hlaw k v. by rewrite (Hlaw _ _), elem_of_map_to_list.
  - split; [|done]. destruct (orig_in_idx r) as [idx|] eqn:Hi; [|done].
    destruct (0 <? idx_offset r) eqn:Ho.
    + destruct (Hseek eq_refl) as (idx0 & [= <-] & ->); [lia|].
      simpl. destruct (fs_Seek idx 0) as [idx0 e]. simpl in Hes.
      destruct (drain_index fuel idx0) as [[irs idx']|] eqn:E; [|done].
      injection Hes as <-.
      edestruct indexLookup_disk_cache as [r' Hr']; [exact E|].
      eexists _, _. split; [exact Hr'|].
      apply (indexLookup_cache_floor _ key [] "" 0), closest_inv_start.
    + destruct (drain_index fuel idx) as [[irs idx']|] eqn:E; [|done].
      injection Hes as <-.
      edestruct indexLookup_disk_cache as [r' Hr']; [exact E|].
      eexists _, _. split; [exact Hr'|].
      apply (indexLookup_cache_floor _ key [] "" 0), closest_inv_start.
Qed.
End IndexLookup.

(** C1 on the index stream of one entry ["aab"] at 14, read once before:
    the lookup of ["mmm"] rewinds and finds 14. *)
Lemma indexLookup_floor_search_witness :
  (∃ r' off,
     indexLookup (range := range_listed) 3 (Sample.indexed_reader true) "mmm"
     = Some (r', (off, None)) ∧
     floor_search [("aab", 14)] "mmm" off) ∧
  (cache_entry_index (Sample.indexed_reader true) = true →
   range_lawful (range := range_listed) →
   ∀ k v, (k, v) ∈ [("aab", 14)]
          ↔ entry_index_cache (Sample.indexed_reader true) !! k = Some v).
Proof.
  apply (indexLookup_floor_search (range := range_listed) 3
           (Sample.indexed_reader true) "mmm" [("aab", 14)]).
  - reflexivity.
  - intros _ _. eexists. split; reflexivity.
Defined.

(** C1 as stated fails.  The writer, told to index every second record,
    makes of the keys "", "", "x" an index of one entry: the empty key at
    offset 7.  That entry has the largest key below ["x"], yet the lookup
    of ["x"] answers 0. *)
Lemma indexLookup_empty_key_entry :
  (∃ w, Sample.write_all
          (NewIndexedWriter (Sample.empty_file true) (Sample.empty_file true)
             IndexType_EVERY_N 2)
          [("", "a"); ("", "b"); ("x", "c")] = Done (w, None) ∧
        Mem.frames (out w) = Mem.frames Sample.empty_keys_data ∧
        Mem.frames <$> out_idx w = Some (Mem.frames Sample.empty_keys_index)) ∧
  index_entries (range := range_listed) 2 Sample.empty_keys_reader
  = Some [("", 7)] ∧
  (∃ r', indexLookup (range := range_listed) 2 Sample.empty_keys_reader "x"
         = Some (r', (0, None))) ∧
  ¬ floor_search_stated [("", 7)] "x" 0.
Proof.
  split; [eexists; repeat split; reflexivity|].
  split; [reflexivity|]. split; [eexists; reflexivity|].
  intros (_ & Hfloor & _).
  destruct Hfloor as ([k v] & (Hin & _) & Hoff).
  - intros e ->%list_elem_of_singleton. discriminate.
  - exists ("", 7). split; [by left|]. by apply key_lt_empty.
  - apply list_elem_of_singleton in Hin. by simplify_eq/=.
Qed.

(** ** Exact lookup *)

Section ExactLookup.
Context {F : Type} {fs : Filesystem F} {codec : ProtoCodec}
        {range : MapRange}.
Implicit Types (r : Reader F) (key : string).

(** Records with keys below the target are read and passed over. *)
Lemma ReadString_loop_skip n :
  ∀ r pre i1 key fuel,
    next_records n (orig_in r) = Some (pre, i1) →
    Forall (λ rec, key_lt (Key rec) key) pre →
    ReadString_loop (n + fuel) r key
    = ReadString_loop fuel (set_orig_in i1 r) key.
Proof.
  induction n as [|n IH]; intros r pre i1 key fuel; simpl.
  - intros [= <- <-] _. by destruct r.
  - destruct (rio_ReadKeyValue (orig_in r)) as [i [rec [e|]]]; [done|].
    destruct (next_records n i) as [[pre' i']|] eqn:E; [|done].
    intros [= <- <-] [Hlt Hpre]%Forall_cons_1.
    unfold key_lt in Hlt.
    destruct (strings_Compare (Key rec) key =? 0) eqn:E0; [lia|].
    destruct (0 <? strings_Compare (Key rec) key) eqn:E1; [lia|].
    by rewrite (IH (set_orig_in i r) pre' i').
Qed.

Lemma ReadString_loop_scan fuel r key n pre i1 :
  next_records n (orig_in r) = Some (pre, i1) →
  Forall (λ rec, key_lt (Key rec) key) pre →
  (n < fuel)%nat →
  (∀ i2 rec, rio_ReadKeyValue i1 = (i2, (rec, None)) → Key rec = key →
     ReadString_loop fuel r key
     = Some (set_orig_in i2 r, (Value rec, None))) ∧
  (∀ i2 rec, rio_ReadKeyValue i1 = (i2, (rec, None)) →
     key_lt key (Key rec) →
     ReadString_loop fuel r key = Some (set_orig_in i2 r, ("", None))) ∧
  (∀ i2, at_EOF i1 i2 →
     ReadString_loop fuel r key = Some (set_orig_in i2 r, ("", None))).
Proof.
  intros Hn Hpre Hfuel.
  replace fuel with (n + S (fuel - S n))%nat by lia.
  rewrite (ReadString_loop_skip n r pre i1) by done. simpl.
  split; [|split].
  - intros i2 rec -> <-.
    by rewrite (proj2 (Compare_zero _ _) eq_refl).
  - intros i2 rec -> Hlt. apply key_lt_flip in Hlt as Hpos. rewrite Hpos.
    destruct (strings_Compare (Key rec) key =? 0) eqn:E0; [|done].
    apply Compare_zero in E0. rewrite E0 in Hlt.
    by apply key_lt_irrefl in Hlt.
  - intros i2 [rec ->]. done.
Qed.

(** A key that no record of the stream has is not found. *)
Lemma ReadString_loop_absent n :
  ∀ fuel r key recs i1 i2,
    next_records n (orig_in r) = Some (recs, i1) → at_EOF i1 i2 →
    Forall (λ rec, Key rec ≠ key) recs → (n < fuel)%nat →
    ∃ r', ReadString_loop fuel r key = Some (r', ("", None)).
Proof.
  induction n as [|n IH]; intros [|fuel] r key recs i1 i2; simpl; try lia.
  - intros [= <- <-] [rec ->] _ _. by eexists.
  - destruct (rio_ReadKeyValue (orig_in r)) as [i [rec [e|]]]; [done|].
    destruct (next_records n i) as [[recs' i']|] eqn:E; [|done].
    intros [= <- <-] Heof [Hne Hrecs]%Forall_cons_1 Hfuel.
    destruct (strings_Compare (Key rec) key =? 0) eqn:E0.
    { by apply Compare_zero in E0. }
    destruct (0 <? strings_Compare (Key rec) key); [by eexists|].
    eapply (IH fuel (set_orig_in i r)); [done..|lia].
Qed.

(** C3.  ReadString, once the index lookup and the seek have succeeded,
    reads on while the keys are below the target.  A record with the
    target's key: its value, no error.  A record with a greater key: the
    scan stops there, empty value, no error.  End of stream: empty value,
    no error. *)
Theorem ReadString_scan fuel r key r1 off r2 n pre i1 :
  indexLookup fuel r key = Some (r1, (off, None)) →
  SeekTo fuel r1 off = Some (r2, None) →
  next_records n (orig_in r2) = Some (pre, i1) →
  Forall (λ rec, key_lt (Key rec) key) pre →
  (n < fuel)%nat →
  (∀ i2 rec, rio_ReadKeyValue i1 = (i2, (rec, None)) → Key rec = key →
     ReadString fuel r key = Some (set_orig_in i2 r2, (Value rec, None))) ∧
  (∀ i2 rec, rio_ReadKeyValue i1 = (i2, (rec, None)) →
     key_lt key (Key rec) →
     ReadString fuel r key = Some (set_orig_in i2 r2, ("", None))) ∧
  (∀ i2, at_EOF i1 i2 →
     ReadString fuel r key = Some (set_orig_in i2 r2, ("", None))).
Proof.
  intros Hl Hs Hn Hpre Hfuel. unfold ReadString. rewrite Hl, Hs.
  by apply (ReadString_loop_scan fuel r2 key n pre i1).
Qed.

(** Over records in ascending order of keys the scan is a lookup: the
    value of the first record with the key, and the empty value when
    there is none. *)
Lemma ReadString_loop_sorted n :
  ∀ fuel r key recs i1 i2,
    next_records n (orig_in r) = Some (recs, i1) → at_EOF i1 i2 →
    StronglySorted (λ a b, key_le (Key a) (Key b)) recs →
    (n < fuel)%nat →
    ∃ r', ReadString_loop fuel r key
          = Some (r', (from_option (λ found, Value found.2) ""
                         (list_find (λ rec, Key rec = key) recs),
                       None)).
Proof.
  induction n as [|n IH]; intros [|fuel] r key recs i1 i2; simpl; try lia.
  - intros [= <- <-] [rec ->] _ _. by eexists.
  - destruct (rio_ReadKeyValue (orig_in r)) as [i [rec [e|]]]; [done|].
    destruct (next_records n i) as [[recs' i']|] eqn:E; [|done].
    intros [= <- <-] Heof [Hs Hall]%StronglySorted_inv Hfuel. simpl.
    destruct (strings_Compare (Key rec) key =? 0) eqn:E0.
    { apply Compare_zero in E0. rewrite decide_True by done. by eexists. }
    assert (Key rec ≠ key) as Hne.
    { intros Heq. apply Compare_zero in Heq. congruence. }
    rewrite decide_False by done.
    destruct (0 <? strings_Compare (Key rec) key) eqn:E1.
    + apply key_lt_flip in E1. eexists. do 3 f_equal.
      destruct (list_find _ recs') as [[j rec']|] eqn:Hf; [|done].
      apply list_find_Some in Hf as (Hj & Hk & _).
      apply list_elem_of_lookup_2 in Hj.
      rewrite Forall_forall in Hall. specialize (Hall _ Hj).
      rewrite Hk in Hall. apply key_lt_not_le in E1. done.
    + edestruct (IH fuel (set_orig_in i r) key) as [r' Hr'];
        [done..|lia|].
      exists r'. rewrite Hr'. do 3 f_equal.
      by destruct (list_find _ recs') as [[j rec']|].
Qed.
End ExactLookup.

(** C3 on the sample table: ["aaa"] and ["aab"] are passed over and the
    record of ["mmm"] gives "baz". *)
Lemma ReadString_scan_witness :
  ReadString (range := range_listed) 3 (NewReader (Sample.data_file true))
    "mmm"
  = Some (set_orig_in (Mem.with_pos 42 (Sample.data_file true))
            (NewReader (Sample.data_file true)), ("baz", None)).
Proof.
  apply (ReadString_scan (range := range_listed) 3
           (NewReader (Sample.data_file true)) "mmm"
           (NewReader (Sample.data_file true)) 0
           (NewReader (Sample.data_file true)) 2
           [mkKeyValue "aaa" "foo"; mkKeyValue "aab" "bar"]
           (Mem.with_pos 28 (Sample.data_file true)))
    with (rec := mkKeyValue "mmm" "baz").
  - reflexivity.
  - reflexivity.
  - reflexivity.
  - repeat constructor.
  - lia.
  - reflexivity.
  - reflexivity.
Defined.

Section StructuredLookup.
Context {F : Type} {fs : Filesystem F} {codec : ProtoCodec}
        {range : MapRange} {M : Type} {pm : ProtoMessage M}.
Implicit Types (r : Reader F) (key : string) (pb : M).

(** What ReadProto makes of an empty value, found or not. *)
Lemma ReadProto_empty_value fuel r key pb r' :
  ReadString fuel r key = Some (r', ("", None)) →
  ReadProto fuel r key pb
  = Some (r', ((pb_Unmarshal [] (pb_Reset pb)).1,
               External <$> (pb_Unmarshal [] (pb_Reset pb)).2)).
Proof.
  intros H. unfold ReadProto. rewrite H.
  change (bytes_of "") with (@nil Byte.byte).
  by destruct (pb_Unmarshal [] (pb_Reset pb)).
Qed.

(** C10.  For a key that no record of the stream has, ReadProto returns
    what unmarshalling the empty value into the reset message gives:
    when that leaves the message as it is and reports nothing, as the
    empty encoding does, a nil error and the message reset.  A record
    that has the key with an empty value gives the same message and the
    same error. *)
Theorem ReadProto_absent_key fuel r key pb r1 off r2 n recs i1 i2 :
  indexLookup fuel r key = Some (r1, (off, None)) →
  SeekTo fuel r1 off = Some (r2, None) →
  next_records n (orig_in r2) = Some (recs, i1) →
  at_EOF i1 i2 →
  Forall (λ rec, Key rec ≠ key) recs →
  (n < fuel)%nat →
  (∃ r', ReadProto fuel r key pb
         = Some (r', ((pb_Unmarshal [] (pb_Reset pb)).1,
                      External <$> (pb_Unmarshal [] (pb_Reset pb)).2)) ∧
         (pb_Unmarshal [] (pb_Reset pb) = (pb_Reset pb, None) →
          ReadProto fuel r key pb = Some (r', (pb_Reset pb, None)))) ∧
  (∀ rp rp1 offp rp2 m pre j1 j2 rec,
     indexLookup fuel rp key = Some (rp1, (offp, None)) →
     SeekTo fuel rp1 offp = Some (rp2, None) →
     next_records m (orig_in rp2) = Some (pre, j1) →
     Forall (λ rec, key_lt (Key rec) key) pre →
     (m < fuel)%nat →
     rio_ReadKeyValue j1 = (j2, (rec, None)) →
     Key rec = key → Value rec = "" →
     ReadProto fuel rp key pb
     = Some (set_orig_in j2 rp2,
             ((pb_Unmarshal [] (pb_Reset pb)).1,
              External <$> (pb_Unmarshal [] (pb_Reset pb)).2))).
Proof.
  intros Hl Hs Hn Heof Habs Hfuel. split.
  - destruct (ReadString_loop_absent n fuel r2 key recs i1 i2)
      as [r' Hr']; [done..|].
    assert (ReadString fuel r key = Some (r', ("", None))) as Hrs.
    { unfold ReadString. by rewrite Hl, Hs. }
    exists r'. split; [by apply ReadProto_empty_value|].
    intros Hu. rewrite (ReadProto_empty_value _ _ _ _ _ Hrs). by rewrite Hu.
  - intros rp rp1 offp rp2 m pre j1 j2 rec Hlp Hsp Hm Hpre Hmf Hrec Hk Hv.
    apply ReadProto_empty_value. unfold ReadString. rewrite Hlp, Hsp.
    rewrite <- Hv.
    by apply (ReadString_loop_scan fuel rp2 key m pre j1).
Qed.
End StructuredLookup.

(** C10 on the sample table: "zzz" is not a key of it, and the message
    comes back reset, with no error. *)
Lemma ReadProto_absent_key_witness :
  ∃ r', ReadProto (range := range_listed) 4
          (NewReader (Sample.data_file true)) "zzz" Sample.stale_message
        = Some (r', (mkKeyValue "" "", None)) ∧
        (pb_Unmarshal [] (pb_Reset Sample.stale_message)
         = (pb_Reset Sample.stale_message, None) →
         ReadProto (range := range_listed) 4
           (NewReader (Sample.data_file true)) "zzz" Sample.stale_message
         = Some (r', (mkKeyValue "" "", None))).
Proof.
  refine (proj1 (ReadProto_absent_key (range := range_listed) 4
           (NewReader (Sample.data_file true)) "zzz" Sample.stale_message
           (NewReader (Sample.data_file true)) 0
           (NewReader (Sample.data_file true)) 3
           [mkKeyValue "aaa" "foo"; mkKeyValue "aab" "bar";
            mkKeyValue "mmm" "baz"]
           (Mem.with_pos 42 (Sample.data_file true))
           (Mem.with_pos 42 (Sample.data_file true)) _ _ _ _ _ _)).
  - reflexivity.
  - reflexivity.
  - reflexivity.
  - eexists. reflexivity.
  - repeat constructor; discriminate.
  - lia.
Defined.

(** The same message and error come back for the table that holds "zzz"
    with an empty value. *)
Lemma ReadProto_empty_value_present :
  ∃ r', ReadString (range := range_listed) 5
          (NewReader Sample.data_file_empty_value) "zzz"
        = Some (r', ("", None)) ∧
        ReadProto (range := range_listed) 5
          (NewReader Sample.data_file_empty_value) "zzz" Sample.stale_message
        = Some (r', (mkKeyValue "" "", None)).
Proof. eexists. split; reflexivity. Qed.

(** ** The scenario: three records, an index entry every second record *)

Section EveryN.
Context {F : Type} {fs : Filesystem F} {codec : ProtoCodec}.
Implicit Types (w : Writer F) (key value : string).

(** With a counter at zero and an index entry every second record, a
    write that succeeds leaves the index stream alone and the counter at
    one; the next write that succeeds marshals an entry of its own key at
    the cursor it started from, writes that entry to the index stream and
    brings the counter back to zero. *)
Lemma updateCounters_policy w n :
  index_type (updateCounters w n) = index_type w ∧
  index_n (updateCounters w n) = index_n w ∧
  prev_index_ctr (updateCounters w n) = prev_index_ctr w.
Proof. unfold updateCounters. repeat case_match; done. Qed.

Lemma WriteString_every_second w idx k1 v1 w1 k2 v2 w2 :
  out_idx w = Some idx → index_type w = IndexType_EVERY_N →
  index_n w = 2 → prev_index_ctr w = 0 →
  WriteString w k1 v1 = Done (w1, None) →
  WriteString w1 k2 v2 = Done (w2, None) →
  out_idx w1 = Some idx ∧ prev_index_ctr w1 = 1 ∧
  ∃ idxdata,
    proto_Marshal_IndexRecord (mkIndexRecord k2 (index_offset w1))
    = (idxdata, None) ∧
    out_idx w2 = Some (rio_Write idx idxdata).1 ∧ prev_index_ctr w2 = 0.
Proof.
  intros Hi Ht Hn Hc H1 H2.
  assert (out_idx w1 = Some idx ∧ prev_index_ctr w1 = 1 ∧
          index_type w1 = IndexType_EVERY_N ∧ index_n w1 = 2) as (Hi1 & Hc1 & Ht1 & Hn1).
  { revert H1. unfold WriteString, generateIndexEntry.
    destruct (0 <? _); [done|].
    destruct (proto_Marshal_KeyValue _) as [record [e|]]; [done|].
    destruct (rio_Write (out w) record) as [o' [len' [e|]]]; [done|].
    simpl. rewrite Hi, Ht, Hn, Hc. simpl.
    change (int64 (0 + 1) `rem` 2) with 1.
    intros [= <-].
    match goal with
    | |- context [updateCounters ?x ?n] =>
        destruct (updateCounters_policy x n) as (-> & -> & ->);
        rewrite (proj2 (proj2 (updateCounters_fields x n)))
    end. done. }
  split; [done|]. split; [done|].
  revert H2. unfold WriteString, generateIndexEntry.
  destruct (0 <? _); [done|].
  destruct (proto_Marshal_KeyValue _) as [record [e|]]; [done|].
  destruct (rio_Write (out w1) record) as [o' [len' [e|]]]; [done|].
  simpl. rewrite Hi1, Ht1, Hn1, Hc1. simpl. unfold emitIndexRecord. simpl.
  destruct (proto_Marshal_IndexRecord _) as [idxdata [e|]]; [done|].
  destruct (rio_Write idx idxdata) as [idx' [? [e|]]] eqn:Hw; [done|].
  simpl.
  change (int64 (1 + 1) `rem` 2) with 0. simpl.
  intros [= <-]. exists idxdata. split; [done|].
  match goal with
  | |- context [updateCounters ?x ?n] =>
      destruct (updateCounters_policy x n) as (_ & _ & ->);
      rewrite (proj2 (proj2 (updateCounters_fields x n)))
  end. by rewrite Hw.
Qed.
End EveryN.



(** C2 on the writer of the package's test: after "test2", the key "test1"
    is refused and the writer is handed back as it was. *)
Lemma WriteString_key_order_witness :
  WriteString
    (from_option fst (NewWriter (Sample.empty_file true))
       (match WriteString (NewWriter (Sample.empty_file true))
                "test2" "data2" with
        | Done p => Some p
        | Panic _ => None
        end))
    "test1" "data1"
  = Done (from_option fst (NewWriter (Sample.empty_file true))
            (match WriteString (NewWriter (Sample.empty_file true))
                     "test2" "data2" with
             | Done p => Some p
             | Panic _ => None
             end),
          Some Err_KeyOrderViolation).
Proof.
  apply (WriteString_key_order
           (from_option fst (NewWriter (Sample.empty_file true))
              (match WriteString (NewWriter (Sample.empty_file true))
                       "test2" "data2" with
               | Done p => Some p
               | Panic _ => None
               end))
           "test1" "data1").
  vm_compute. reflexivity.
Defined.

(** ** More on the Writer: what a run of writes keeps, the index policies *)

Lemma int64_small (z : Z) : - 2 ^ 63 ≤ z < 2 ^ 63 → int64 z = z.
Proof.
  intros H. unfold int64. rewrite Z.mod_small by lia. lia.
Qed.

Section WriterRuns.
Context {F : Type} {fs : Filesystem F} {codec : ProtoCodec}.
Implicit Types (w : Writer F) (key value : string).

Lemma updateCounters_keeps w n :
  out_idx (updateCounters w n) = out_idx w ∧
  index_type (updateCounters w n) = index_type w ∧
  index_n (updateCounters w n) = index_n w ∧
  prev_index_ctr (updateCounters w n) = prev_index_ctr w ∧
  prev_index_prefix (updateCounters w n) = prev_index_prefix w ∧
  last_key (updateCounters w n) = last_key w.
Proof. unfold updateCounters. repeat case_match; done. Qed.

Lemma WriteString_success w key value w' :
  WriteString w key value = Done (w', None) →
  key_le (last_key w) key ∧ last_key w' = key.
Proof.
  intros H. split; [|by eapply WriteString_last_key].
  unfold WriteString in H.
  destruct (0 <? strings_Compare (last_key w) key) eqn:E; [done|].
  unfold key_le. lia.
Qed.

(** A run of writes that all succeed has written keys in ascending order,
    starting at or above the last key the writer had, and leaves the last
    of them as the writer's last key. *)
Theorem WriteString_each_ascending w (kvs : list (string * string)) w' :
  WriteString_each w kvs = Done (w', None) →
  Sorted key_le (last_key w :: kvs.*1) ∧
  last_key w' = default (last_key w) (last kvs.*1).
Proof.
  revert w. induction kvs as [|[k v] kvs IH]; intros w; simpl.
  - intros [= <-]. split; [by repeat constructor|done].
  - destruct (WriteString w k v) as [[w1 [e|]]|] eqn:E; [done| |done].
    intros H. apply WriteString_success in E as [Hle Hk].
    destruct (IH _ H) as [Hs Hl]. rewrite Hk in Hs, Hl. split.
    + constructor; [done|]. by constructor.
    + rewrite Hl, last_cons. change (list_fmap _ _ fst kvs) with (kvs.*1).
      by destruct (last kvs.*1).
Qed.

(** A key below the writer's last key stops the run there: the run returns
    the key order violation and the writer as the writes before left it. *)
Lemma WriteString_each_violation w (pre : list (string * string)) k v post w1 :
  WriteString_each w pre = Done (w1, None) → key_lt k (last_key w1) →
  WriteString_each w (pre ++ (k, v) :: post)
  = Done (w1, Some Err_KeyOrderViolation).
Proof.
  revert w. induction pre as [|[k0 v0] pre IH]; intros w; simpl.
  - intros [= <-] Hlt. apply key_lt_flip in Hlt. unfold WriteString.
    by rewrite Hlt.
  - destruct (WriteString w k0 v0) as [[w0 [e|]]|]; [done| |done]. apply IH.
Qed.
End WriterRuns.

Lemma substring_0_length (n : nat) (s : string) :
  (n ≤ String.length s)%nat → String.length (String.substring 0 n s) = n.
Proof.
  revert s. induction n as [|n IH]; intros [|c s] H; simpl in *;
    try done; try lia.
  rewrite IH; lia.
Qed.

Lemma substring_0_prefix (n : nat) (s : string) :
  String.prefix (String.substring 0 n s) s = true.
Proof.
  revert s. induction n as [|n IH]; intros [|c s]; simpl; try done.
  rewrite IH. by destruct (Ascii.ascii_dec c c).
Qed.

Lemma prefix_refl (s : string) : String.prefix s s = true.
Proof.
  induction s as [|c s IH]; simpl; [done|].
  by destruct (Ascii.ascii_dec c c).
Qed.

Lemma index_prefix_facts (n : Z) (key : string) :
  0 ≤ n →
  String.prefix (index_prefix n key) key = true ∧
  len (index_prefix n key) ≤ n ∧
  (n = 0 → index_prefix n key = "").
Proof.
  intros Hn. unfold index_prefix, len.
  destruct (Z.of_nat (String.length key) <=? n) eqn:E.
  - apply Z.leb_le in E. split; [apply prefix_refl|]. split; [done|].
    intros ->. destruct key; [done|]. exfalso. simpl in E. lia.
  - apply Z.leb_gt in E. split; [apply substring_0_prefix|].
    rewrite substring_0_length by lia. split; [lia|].
    intros ->. by destruct key.
Qed.

Section IndexPolicies.
Context {F : Type} {fs : Filesystem F} {codec : ProtoCodec}.
Implicit Types (w : Writer F) (key value : string).

Local Ltac counters :=
  match goal with
  | |- context [updateCounters ?x ?n] =>
      let H1 := fresh in let H2 := fresh in let H3 := fresh in
      let H4 := fresh in let H5 := fresh in let H6 := fresh in
      destruct (updateCounters_keeps x n) as (H1 & H2 & H3 & H4 & H5 & H6);
      rewrite ?H1, ?H2, ?H3, ?H4, ?H5, ?H6;
      clear H1 H2 H3 H4 H5 H6
  end.

(** EVERY_N with [0 < n]: a write that succeeds moves the counter on by
    one modulo [n]; while the counter does not come back to zero the index
    stream is left alone; when it does, one entry is written to it, made of
    the key of this write and the cursor the write started from. *)
Theorem WriteString_every_n w idx key value w' (n : Z) :
  out_idx w = Some idx → index_type w = IndexType_EVERY_N →
  index_n w = n → 0 < n < 2 ^ 63 → 0 ≤ prev_index_ctr w < n →
  WriteString w key value = Done (w', None) →
  prev_index_ctr w' = (prev_index_ctr w + 1) mod n ∧
  0 ≤ prev_index_ctr w' < n ∧
  ((prev_index_ctr w + 1) mod n ≠ 0 →
     out_idx w' = Some idx ∧ prev_index_prefix w' = prev_index_prefix w) ∧
  ((prev_index_ctr w + 1) mod n = 0 →
     ∃ idxdata,
       proto_Marshal_IndexRecord (mkIndexRecord key (index_offset w))
       = (idxdata, None) ∧
       out_idx w' = Some (rio_Write idx idxdata).1).
Proof.
  intros Hi Ht Hn Hrange Hc. unfold WriteString, generateIndexEntry.
  destruct (0 <? _); [done|].
  destruct (proto_Marshal_KeyValue _) as [record [e|]]; [done|].
  destruct (rio_Write (out w) record) as [o' [len' [e|]]]; [done|].
  simpl. rewrite Hi, Ht, Hn. simpl.
  destruct (n =? 0) eqn:En; [lia|].
  rewrite int64_small by lia. rewrite Z.rem_mod_nonneg by lia.
  pose proof (Z.mod_pos_bound (prev_index_ctr w + 1) n) as Hb.
  destruct ((prev_index_ctr w + 1) mod n =? 0) eqn:E0.
  - apply Z.eqb_eq in E0. unfold emitIndexRecord. simpl.
    destruct (proto_Marshal_IndexRecord _) as [idxdata [e|]]; [done|].
    destruct (rio_Write idx idxdata) as [idx' [? [e|]]] eqn:Hw; [done|].
    simpl. intros [= <-]. counters. simpl.
    split; [done|]. split; [lia|]. split; [done|].
    intros _. exists idxdata. by rewrite Hw.
  - apply Z.eqb_neq in E0. intros [= <-]. counters. simpl.
    split; [done|]. split; [lia|]. split; [by rewrite Hi|done].
Qed.

(** PREFIXLEN with [0 ≤ n]: a write that succeeds leaves the index stream
    alone when the prefix of its key is the prefix remembered; otherwise it
    writes one entry, made of that prefix and the cursor the write started
    from, and remembers the prefix.  The prefix is a prefix of the key of
    at most [n] bytes; with [n = 0] it is always empty. *)
Theorem WriteString_prefixlen w idx key value w' (n : Z) :
  out_idx w = Some idx → index_type w = IndexType_PREFIXLEN →
  index_n w = n → 0 ≤ n →
  WriteString w key value = Done (w', None) →
  (index_prefix n key = prev_index_prefix w →
     out_idx w' = Some idx ∧ prev_index_prefix w' = prev_index_prefix w) ∧
  (index_prefix n key ≠ prev_index_prefix w →
     ∃ idxdata,
       proto_Marshal_IndexRecord
         (mkIndexRecord (index_prefix n key) (index_offset w))
       = (idxdata, None) ∧
       out_idx w' = Some (rio_Write idx idxdata).1 ∧
       prev_index_prefix w' = index_prefix n key) ∧
  String.prefix (index_prefix n key) key = true ∧
  len (index_prefix n key) ≤ n ∧
  (n = 0 → index_prefix n key = "").
Proof.
  intros Hi Ht Hn Hpos. unfold WriteString, generateIndexEntry.
  destruct (0 <? _); [done|].
  destruct (proto_Marshal_KeyValue _) as [record [e|]]; [done|].
  destruct (rio_Write (out w) record) as [o' [len' [e|]]]; [done|].
  simpl. rewrite Hi, Ht, Hn. simpl.
  replace (n <? 0) with false by (symmetry; apply Z.ltb_ge; lia).
  rewrite andb_false_r. fold (index_prefix n key).
  intros H. split; [|split; [|by apply index_prefix_facts]].
  - intros Heq. revert H. rewrite decide_False by (by intros Hne; apply Hne).
    intros [= <-]. counters. simpl. by rewrite Hi.
  - intros Hne. revert H. rewrite decide_True by done.
    unfold emitIndexRecord. simpl.
    destruct (proto_Marshal_IndexRecord _) as [idxdata [e|]]; [done|].
    destruct (rio_Write idx idxdata) as [idx' [? [e|]]] eqn:Hw; [done|].
    simpl. intros [= <-]. counters. simpl.
    exists idxdata. by rewrite Hw.
Qed.

(** A writer set up wrongly.  Once the record itself is written: EVERY_N
    with [n = 0] panics, PREFIXLEN with [n < 0] panics, and an index type
    that is none of the three returns Err_UnsupportedIndexType with the key
    already recorded as the last key and the cursor not moved. *)
Theorem WriteString_misconfigured w idx key value record o' (n : Z) :
  ¬ key_lt key (last_key w) → out_idx w = Some idx →
  proto_Marshal_KeyValue (mkKeyValue key value) = (record, None) →
  rio_Write (out w) record = (o', (n, None)) →
  (index_type w = IndexType_EVERY_N → index_n w = 0 →
     ∃ why, WriteString w key value = Panic why) ∧
  (index_type w = IndexType_PREFIXLEN → index_n w < 0 →
     ∃ why, WriteString w key value = Panic why) ∧
  (index_type w ≠ IndexType_NONE → index_type w ≠ IndexType_EVERY_N →
   index_type w ≠ IndexType_PREFIXLEN →
     WriteString w key value
     = Done (set_last_key key (set_out o' w), Some Err_UnsupportedIndexType)).
Proof.
  intros Hord Hi Hm Hw. rewrite key_lt_flip in Hord.
  unfold WriteString, generateIndexEntry.
  destruct (0 <? strings_Compare (last_key w) key); [done|].
  rewrite Hm, Hw. simpl. rewrite Hi. split; [|split].
  - intros -> ->. simpl. by eexists.
  - intros -> Hn. simpl.
    replace (len key >? index_n w) with true
      by (symmetry; unfold len; apply Z.gtb_lt; lia).
    replace (index_n w <? 0) with true by (symmetry; apply Z.ltb_lt; lia).
    by eexists.
  - intros H0 H1 H2.
    rewrite (proj2 (Z.eqb_neq _ _) H0), (proj2 (Z.eqb_neq _ _) H1),
      (proj2 (Z.eqb_neq _ _) H2). done.
Qed.

(** An error returned once the record itself is written (the index entry
    could not be marshalled or written, or the index type is unknown)
    leaves the key recorded as the last key and the cursor where it was:
    the data stream has the record, the cursor does not count it. *)
Theorem WriteString_error_after_write w key value record o' (n : Z) w' e :
  ¬ key_lt key (last_key w) →
  proto_Marshal_KeyValue (mkKeyValue key value) = (record, None) →
  rio_Write (out w) record = (o', (n, None)) →
  WriteString w key value = Done (w', Some e) →
  out w' = o' ∧ last_key w' = key ∧ index_offset w' = index_offset w ∧
  (e = Err_UnsupportedIndexType ∨ ∃ x, e = External x).
Proof.
  intros Hord Hm Hw. rewrite key_lt_flip in Hord. unfold WriteString.
  destruct (0 <? strings_Compare (last_key w) key); [done|].
  rewrite Hm, Hw.
  destruct (generateIndexEntry _ key) as [[w1 [e1|]]|] eqn:E; [|done|done].
  intros [= <- <-].
  destruct (generateIndexEntry_fields _ _ _ _ E) as (-> & _ & -> & ->).
  repeat split. by eapply generateIndexEntry_error.
Qed.

(** A writer without index stream, or with the index type NONE, never
    panics, never returns Err_UnsupportedIndexType and never touches its
    index stream. *)
Theorem WriteString_without_index w key value :
  out_idx w = None ∨ index_type w = IndexType_NONE →
  (∀ why, WriteString w key value ≠ Panic why) ∧
  (∀ w' e, WriteString w key value = Done (w', Some e) →
           out_idx w' = out_idx w ∧
           (e = Err_KeyOrderViolation ∨ ∃ x, e = External x)) ∧
  (∀ w', WriteString w key value = Done (w', None) →
         out_idx w' = out_idx w).
Proof.
  intros Hcase.
  assert (∀ o', generateIndexEntry (set_last_key key (set_out o' w)) key
                = Done (set_last_key key (set_out o' w), None)) as Hgen.
  { intros o'. unfold generateIndexEntry. simpl.
    destruct Hcase as [->| ->]; [done|]. by destruct (out_idx w). }
  unfold WriteString.
  destruct (0 <? _).
  { split; [done|]. split; [|done]. intros w' e [= <- <-]. eauto. }
  destruct (proto_Marshal_KeyValue _) as [record [e|]].
  { split; [done|]. split; [|done]. intros w' e' [= <- <-]. eauto. }
  destruct (rio_Write (out w) record) as [o' [len' [e|]]].
  { split; [done|]. split; [|done]. intros w' e' [= <- <-]. eauto. }
  rewrite Hgen. split; [done|]. split; [done|].
  intros w' [= <-]. counters. done.
Qed.
End IndexPolicies.

(** ** Batch writes do not depend on the order of the map *)

Section BatchOrder.
Context {F : Type} {fs : Filesystem F} {codec : ProtoCodec}.
Implicit Types (w : Writer F).

Lemma sort_Strings_unique (keys keys' : list string) :
  keys ≡ₚ keys' → sort_Strings keys = sort_Strings keys'.
Proof.
  intros Hp. apply (StronglySorted_unique String.le).
  - apply StronglySorted_merge_sort; apply _.
  - apply StronglySorted_merge_sort; apply _.
  - unfold sort_Strings. by rewrite !merge_sort_Permutation.
Qed.

(** Whatever order [range] visits the map in, WriteStringMap makes the same
    calls of WriteString and returns the same. *)
Theorem WriteStringMap_any_order (range1 range2 : MapRange) w
    (data : gmap string string) :
  range_lawful (range := range1) → range_lawful (range := range2) →
  WriteStringMap (range := range1) w data
  = WriteStringMap (range := range2) w data.
Proof.
  intros H1 H2. unfold WriteStringMap. f_equal.
  apply sort_Strings_unique. by rewrite (H1 _ data), (H2 _ data).
Qed.
End BatchOrder.

(** ** The cache of the index *)

Lemma cache_of_snoc irs ir m :
  cache_of (irs ++ [ir]) m = <[IKey ir := Offset ir]> (cache_of irs m).
Proof. unfold cache_of. by rewrite foldl_app. Qed.

(** Last write wins: a key of the cache has the offset of the last record
    with that key; other keys keep what the map had. *)
Lemma cache_of_lookup irs m k :
  cache_of irs m !! k
  = match list_find (λ ir, IKey ir = k) (reverse irs) with
    | Some (_, ir) => Some (Offset ir)
    | None => m !! k
    end.
Proof.
  induction irs as [|ir irs IH] using rev_ind; [done|].
  rewrite cache_of_snoc, reverse_snoc. simpl.
  destruct (decide (IKey ir = k)) as [<-|Hne].
  - by rewrite lookup_insert_eq.
  - rewrite lookup_insert_ne by done. rewrite IH.
    by destruct (list_find _ (reverse irs)) as [[? ?]|].
Qed.

Section IndexCache.
Context {F : Type} {fs : Filesystem F} {codec : ProtoCodec}.
Implicit Types (r : Reader F).

Lemma cacheEntryIndex_loop_reads fuel :
  tell_pure →
  ∀ seeker r idx irs e idx',
    read_index fuel idx = Some (irs, e, idx') →
    ∃ r', cacheEntryIndex_loop fuel None seeker r idx = Some (r', inr e) ∧
          entry_index_cache r' = cache_of irs (entry_index_cache r) ∧
          orig_in_idx r' = Some idx' ∧ orig_in r' = orig_in r ∧
          cache_entry_index r' = cache_entry_index r.
Proof.
  intros Htell. induction fuel as [|fuel IH];
    intros seeker r idx irs e idx'; [done|].
  simpl. destruct (rio_ReadIndexRecord idx) as [idx1 [ir [e1|]]].
  - intros [= <- <- <-]. by eexists.
  - destruct (read_index fuel idx1) as [[[irs1 e2] idx2]|] eqn:E; [|done].
    intros [= <- <- <-].
    destruct seeker.
    + pose proof (Htell idx1) as Ht.
      destruct (fs_Tell idx1) as [idx1' [p [e3|]]]; simpl in Ht; subst idx1';
        edestruct (IH true) as (r' & -> & Hc & Hi & Ho & Hf); [exact E| |exact E|];
        by exists r'.
    + edestruct (IH false) as (r' & -> & Hc & Hi & Ho & Hf); [exact E|].
      by exists r'.
Qed.

(** NewReaderWithIdx with the cache asked for reads the index stream to the
    first error.  The reader it returns has in its cache, for every key,
    the offset of the last record read with that key; its error is nil
    when the stream ended with [io.EOF] and that error otherwise, the cache
    then holding what was read before it. *)
Theorem NewReaderWithIdx_cache fuel (sst idx : F) irs e idx' :
  tell_pure →
  read_index fuel idx = Some (irs, e, idx') →
  ∃ r', NewReaderWithIdx fuel None sst idx true = Some (r', nil_on_EOF e) ∧
        orig_in r' = sst ∧ orig_in_idx r' = Some idx' ∧
        cache_entry_index r' = true ∧
        entry_index_cache r' = cache_of irs ∅ ∧
        ∀ k, entry_index_cache r' !! k
             = (λ found, Offset found.2)
                 <$> list_find (λ ir, IKey ir = k) (reverse irs).
Proof.
  intros Htell Hread. unfold NewReaderWithIdx, cacheEntryIndex. simpl.
  edestruct (cacheEntryIndex_loop_reads fuel Htell (fs_Seeker idx))
    as (r' & -> & Hc & Hi & Ho & Hf); [exact Hread|].
  exists r'. simpl in *. split.
  { by destruct e. }
  repeat split; try done.
  intros k. rewrite Hc, cache_of_lookup, lookup_empty.
  by destruct (list_find _ (reverse irs)) as [[? ?]|].
Qed.

(** NewReaderWithIdx never returns one of this package's own errors, only
    what the context or the index stream reported; without the cache asked
    for it reads nothing and returns no error; and with a context that is
    already cancelled it returns the context's error at once, the index
    stream not read and the cache empty. *)
Theorem NewReaderWithIdx_errors fuel (ctx : Context) (sst idx : F) :
  (∀ cache r' err,
     NewReaderWithIdx fuel ctx sst idx cache = Some (r', Some err) →
     ∃ x, err = External x) ∧
  NewReaderWithIdx fuel ctx sst idx false
  = Some (mkReader sst 0 (Some idx) 0 false ∅, None) ∧
  (∀ e, ctx = Some e → (0 < fuel)%nat →
     NewReaderWithIdx fuel ctx sst idx true
     = Some (mkReader sst 0 (Some idx) 0 true ∅, Some (External e))).
Proof.
  split; [|split].
  - intros [|] r' err; unfold NewReaderWithIdx, cacheEntryIndex; simpl;
      [|done].
    destruct (cacheEntryIndex_loop _ _ _ _ _) as [[r1 [e1|e1]]|]; [| |done].
    + intros [= <- <-]. by eexists.
    + case_decide; [|done]. intros [= <- <-]. by eexists.
  - done.
  - intros e -> Hf. destruct fuel; [lia|]. done.
Qed.
End IndexCache.

(** ** The lookup in the cache does not depend on the order of the map *)

Lemma key_le_antisym (a b : string) : key_le a b → key_le b a → a = b.
Proof.
  rewrite (key_le_lt_eq a b). intros [Hlt|Heq] Hle; [|done].
  apply key_lt_not_le in Hlt. contradiction.
Qed.

Lemma NoDup_fst_agree {V : Type} (es : list (string * V)) k v1 v2 :
  NoDup es.*1 → (k, v1) ∈ es → (k, v2) ∈ es → v1 = v2.
Proof.
  induction es as [|[k' v'] es IH]; simpl.
  - by intros _ ?%elem_of_nil.
  - intros [Hnotin Hnd]%NoDup_cons [H1|H1]%elem_of_cons [H2|H2]%elem_of_cons;
      simplify_eq.
    + done.
    + destruct Hnotin. apply list_elem_of_fmap. by exists (k', v2).
    + destruct Hnotin. apply list_elem_of_fmap. by exists (k', v1).
    + by apply IH.
Qed.

Lemma first_exact_exists (es : list (string * Z)) key v :
  (key, v) ∈ es → ∃ v1, first_exact es key v1.
Proof.
  induction es as [|[k' v'] es IH]; [by intros ?%elem_of_nil|].
  intros Hin. destruct (decide (k' = key)) as [->|Hne].
  - exists v', [], es. split; [done|]. by intros e ?%elem_of_nil.
  - apply elem_of_cons in Hin as [?|Hin]; [by simplify_eq|].
    destruct (IH Hin) as (v1 & pre & post & -> & Hpre).
    exists v1, ((k', v') :: pre), post. split; [done|].
    intros e [->|?]%elem_of_cons; [done|by apply Hpre].
Qed.

(** Over entries with distinct keys a floor search has one answer, in
    whatever order the entries come. *)
Lemma floor_search_unique (es es' : list (string * Z)) key off off' :
  es ≡ₚ es' → NoDup es.*1 →
  floor_search es key off → floor_search es' key off' → off = off'.
Proof.
  intros Hp Hnd (Hex & Hfl & Hz) (Hex' & Hfl' & Hz').
  destruct (decide (Exists (λ e, e.1 = key) es)) as [Hsome|Hnone].
  - apply Exists_exists in Hsome as ([k v] & Hin & Hk). simpl in Hk. subst k.
    destruct (first_exact_exists es key v Hin) as [v1 H1].
    assert ((key, v) ∈ es') as Hin' by by rewrite <- Hp.
    destruct (first_exact_exists es' key v Hin') as [v2 H2].
    rewrite (Hex _ H1), (Hex' _ H2).
    destruct H1 as (pre & post & -> & _), H2 as (pre' & post' & E' & _).
    apply (NoDup_fst_agree (pre ++ (key, v1) :: post) key); [done| |].
    + apply elem_of_app. right. by left.
    + rewrite Hp, E'. apply elem_of_app. right. by left.
  - assert (∀ e, e ∈ es → e.1 ≠ key) as Hno.
    { intros e He Hk. apply Hnone, Exists_exists. by exists e. }
    assert (∀ e, e ∈ es' → e.1 ≠ key) as Hno'.
    { intros e He. apply Hno. by rewrite Hp. }
    destruct (decide (Exists (λ e, e.1 ≠ "" ∧ key_lt e.1 key) es))
      as [Hbelow|Hnb].
    + apply Exists_exists in Hbelow as (e0 & Hin0 & Hne0 & Hlt0).
      destruct (Hfl Hno) as (e & (Hin & Hlt & Hmax) & ->); [by exists e0|].
      destruct (Hfl' Hno') as (e' & (Hin' & Hlt' & Hmax') & ->).
      { exists e0. by rewrite <- Hp. }
      rewrite <- Hp in Hin'.
      assert (e.1 = e'.1) as Hk.
      { apply key_le_antisym; [apply Hmax'; [by rewrite <- Hp|done]|].
        by apply Hmax. }
      destruct e as [k v], e' as [k' v']. simpl in *. subst k'.
      by eapply NoDup_fst_agree.
    + assert (∀ e, e ∈ es → key_lt e.1 key → e.1 = "") as Hall.
      { intros e He Hlt. destruct (decide (e.1 = "")) as [|Hne]; [done|].
        destruct Hnb. apply Exists_exists. by exists e. }
      rewrite (Hz Hno Hall). symmetry. apply (Hz' Hno').
      intros e He. apply Hall. by rewrite Hp.
Qed.

Lemma indexLookup_cache_from (es : list (string * Z)) key :
  ∀ ck cv,
    indexLookup_cache es key ck cv = cv ∨
    ∃ e, e ∈ es ∧ indexLookup_cache es key ck cv = e.2.
Proof.
  induction es as [|[k v] es IH]; intros ck cv; simpl; [by left|].
  assert (∀ ck' cv',
            (indexLookup_cache es key ck' cv' = cv' ∨
             ∃ e, e ∈ es ∧ indexLookup_cache es key ck' cv' = e.2) →
            cv' = cv ∨ cv' = v →
            indexLookup_cache es key ck' cv' = cv ∨
            ∃ e, e ∈ (k, v) :: es ∧ indexLookup_cache es key ck' cv' = e.2)
    as Hstep.
  { intros ck' cv' [->|(e & He & ->)] Hcv.
    - destruct Hcv as [->| ->]; [by left|]. right. exists (k, v).
      split; [by left|done].
    - right. exists e. split; [by right|done]. }
  destruct (0 <? strings_Compare key k).
  - destruct (0 <? strings_Compare k ck); apply Hstep; auto.
  - destruct (strings_Compare key k =? 0); [|apply Hstep; auto].
    right. exists (k, v). split; [by left|done].
Qed.

Lemma read_index_drain {F : Type} {fs : Filesystem F} fuel :
  ∀ (idx : F) irs idx',
    read_index fuel idx = Some (irs, io_EOF, idx') →
    drain_index fuel idx = Some (irs, idx').
Proof.
  induction fuel as [|fuel IH]; intros idx irs idx'; [done|]. simpl.
  destruct (rio_ReadIndexRecord idx) as [idx1 [ir [e1|]]].
  - by intros [= <- -> <-].
  - destruct (read_index fuel idx1) as [[[irs1 e2] idx2]|] eqn:E; [|done].
    intros [= <- -> <-]. by rewrite (IH _ _ _ E).
Qed.

Lemma map_to_list_cache_of irs (m : gmap string Z) :
  NoDup (IKey <$> irs) → (∀ ir, ir ∈ irs → m !! IKey ir = None) →
  map_to_list (cache_of irs m) ≡ₚ (entry_of <$> irs) ++ map_to_list m.
Proof.
  revert m. induction irs as [|ir irs IH]; intros m Hnd Hfresh; [done|].
  apply NoDup_cons in Hnd as [Hnotin Hnd].
  change (cache_of (ir :: irs) m)
    with (cache_of irs (<[IKey ir := Offset ir]> m)).
  rewrite IH; [|done|].
  - rewrite map_to_list_insert by (apply Hfresh; by left).
    simpl. by rewrite <- Permutation_middle.
  - intros ir' Hin. rewrite lookup_insert_ne.
    + apply Hfresh. by right.
    + intros Heq. apply Hnotin. rewrite Heq.
      by apply list_elem_of_fmap_2.
Qed.

Section CachedLookup.
Context {F : Type} {fs : Filesystem F} {codec : ProtoCodec}.
Implicit Types (r : Reader F) (key : string).

(** With the cache, the index lookup returns the same offset in whatever
    order [range] visits the map. *)
Theorem indexLookup_cached_any_order (range1 range2 : MapRange) fuel r key :
  range_lawful (range := range1) → range_lawful (range := range2) →
  cache_entry_index r = true →
  indexLookup (range := range1) fuel r key
  = indexLookup (range := range2) fuel r key.
Proof.
  intros H1 H2 Hc. unfold indexLookup. rewrite Hc. do 3 f_equal.
  eapply (floor_search_unique
            (@go_range range1 _ (entry_index_cache r))
            (@go_range range2 _ (entry_index_cache r))).
  - by rewrite (H1 _ _), (H2 _ _).
  - rewrite (H1 _ _). apply NoDup_fst_map_to_list.
  - apply (indexLookup_cache_floor _ key [] "" 0), closest_inv_start.
  - apply (indexLookup_cache_floor _ key [] "" 0), closest_inv_start.
Qed.

(** Over an index stream whose records have distinct keys, the reader
    with the cache and the reader without it find the same offset. *)
Theorem indexLookup_cached_as_on_disk {range : MapRange} fuel (sst idx : F)
    irs idx' key :
  tell_pure → range_lawful →
  read_index fuel idx = Some (irs, io_EOF, idx') →
  NoDup (IKey <$> irs) →
  ∃ rc rd rc' rd' off,
    NewReaderWithIdx fuel None sst idx true = Some (rc, None) ∧
    NewReaderWithIdx fuel None sst idx false = Some (rd, None) ∧
    indexLookup fuel rc key = Some (rc', (off, None)) ∧
    indexLookup fuel rd key = Some (rd', (off, None)).
Proof.
  intros Htell Hlaw Hread Hnd.
  assert (∃ rc, NewReaderWithIdx fuel None sst idx true = Some (rc, None) ∧
                cache_entry_index rc = true ∧
                entry_index_cache rc = cache_of irs ∅)
    as (rc & Hrc & Hflag & Hcache).
  { unfold NewReaderWithIdx, cacheEntryIndex. simpl.
    edestruct (cacheEntryIndex_loop_reads fuel Htell (fs_Seeker idx))
      as (r' & -> & Hc & Hi & Ho & Hf); [exact Hread|].
    exists r'. simpl in *. done. }
  edestruct (indexLookup_disk_cache fuel
               (mkReader sst 0 (Some idx) 0 false ∅) idx irs idx' key "" 0)
    as [rd' Hrd']; [by apply read_index_drain|].
  eexists rc, _, rc, rd', _. split; [done|split; [done|split]].
  - unfold indexLookup. rewrite Hflag. done.
  - unfold indexLookup. simpl. rewrite Hrd'. do 3 f_equal.
    eapply (floor_search_unique (entry_of <$> irs)
              (go_range (entry_index_cache rc))).
    + rewrite (Hlaw _ _), Hcache. simpl.
      rewrite map_to_list_cache_of; [|done|by intros; apply lookup_empty].
      by rewrite map_to_list_empty, app_nil_r.
    + by rewrite <- list_fmap_compose.
    + apply (indexLookup_cache_floor _ key [] "" 0), closest_inv_start.
    + apply (indexLookup_cache_floor _ key [] "" 0), closest_inv_start.
Qed.

(** The offset an index lookup returns is 0 or the offset of one of the
    entries at hand: the lookup makes up no offset. *)
Theorem indexLookup_no_made_up_offset {range : MapRange} fuel r key es :
  index_entries fuel r = Some es →
  (cache_entry_index r = false → 0 < idx_offset r →
     ∃ idx, orig_in_idx r = Some idx ∧ fs_Seeker idx = true) →
  ∃ r' off, indexLookup fuel r key = Some (r', (off, None)) ∧
            (off = 0 ∨ ∃ k, (k, off) ∈ es).
Proof.
  assert (∀ es0, indexLookup_cache es0 key "" 0 = 0 ∨
                 ∃ k, (k, indexLookup_cache es0 key "" 0) ∈ es0) as Hfrom.
  { intros es0.
    destruct (indexLookup_cache_from es0 key "" 0) as [->|([k v] & He & ->)];
      [by left|]. right. by exists k. }
  unfold index_entries, indexLookup. intros Hes Hseek.
  destruct (cache_entry_index r) eqn:Hc.
  { injection Hes as <-. by eexists _, _. }
  destruct (orig_in_idx r) as [idx|] eqn:Hi; [|done].
  destruct (0 <? idx_offset r) eqn:Ho.
  - destruct (Hseek eq_refl) as (idx0 & [= <-] & ->); [lia|].
    simpl. destruct (fs_Seek idx 0) as [idx0 e]. simpl in Hes.
    destruct (drain_index fuel idx0) as [[irs idx']|] eqn:E; [|done].
    injection Hes as <-.
    edestruct indexLookup_disk_cache as [r' Hr']; [exact E|].
    eexists _, _. split; [exact Hr'|done].
  - destruct (drain_index fuel idx) as [[irs idx']|] eqn:E; [|done].
    injection Hes as <-.
    edestruct indexLookup_disk_cache as [r' Hr']; [exact E|].
    eexists _, _. split; [exact Hr'|done].
Qed.
End CachedLookup.

(** ** Reads at or after a key, reads of everything *)

Lemma assign_all_snoc {V : Type} (f : KeyValue → V) recs rec rv :
  assign_all f (recs ++ [rec]) rv = <[Key rec := f rec]> (assign_all f recs rv).
Proof. unfold assign_all. by rewrite foldl_app. Qed.

Lemma assign_all_lookup {V : Type} (f : KeyValue → V) recs rv k :
  assign_all f recs rv !! k
  = match list_find (λ rec, Key rec = k) (reverse recs) with
    | Some (_, rec) => Some (f rec)
    | None => rv !! k
    end.
Proof.
  induction recs as [|rec recs IH] using rev_ind; [done|].
  rewrite assign_all_snoc, reverse_snoc. simpl.
  destruct (decide (Key rec = k)) as [<-|Hne].
  - by rewrite lookup_insert_eq.
  - rewrite lookup_insert_ne by done. rewrite IH.
    by destruct (list_find _ (reverse recs)) as [[? ?]|].
Qed.

Section Scans.
Context {F : Type} {fs : Filesystem F} {codec : ProtoCodec}
        {range : MapRange}.
Implicit Types (r : Reader F) (key : string).

Lemma ReadSubsequentString_loop_skip n :
  ∀ r pre i1 key fuel,
    next_records n (orig_in r) = Some (pre, i1) →
    Forall (λ rec, key_lt (Key rec) key) pre →
    ReadSubsequentString_loop (n + fuel) r key
    = ReadSubsequentString_loop fuel (set_orig_in i1 r) key.
Proof.
  induction n as [|n IH]; intros r pre i1 key fuel; simpl.
  - intros [= <- <-] _. by destruct r.
  - destruct (rio_ReadKeyValue (orig_in r)) as [i [rec [e|]]]; [done|].
    destruct (next_records n i) as [[pre' i']|] eqn:E; [|done].
    intros [= <- <-] [Hlt Hpre]%Forall_cons_1.
    unfold key_lt in Hlt.
    destruct (strings_Compare (Key rec) key =? 0) eqn:E0; [lia|].
    destruct (0 <? strings_Compare (Key rec) key) eqn:E1; [lia|].
    simpl. by rewrite (IH (set_orig_in i r) pre' i').
Qed.

(** ReadSubsequentString, once the index lookup and the seek have
    succeeded, passes over the records with keys below the target and
    returns the first record whose key is the target or above it, key and
    value; at the end of the stream it returns empty key and value and no
    error. *)
Theorem ReadSubsequentString_scan fuel r key r1 off r2 n pre i1 :
  indexLookup fuel r key = Some (r1, (off, None)) →
  SeekTo fuel r1 off = Some (r2, None) →
  next_records n (orig_in r2) = Some (pre, i1) →
  Forall (λ rec, key_lt (Key rec) key) pre →
  (n < fuel)%nat →
  (∀ i2 rec, rio_ReadKeyValue i1 = (i2, (rec, None)) →
     key_le key (Key rec) →
     ReadSubsequentString fuel r key
     = Some (set_orig_in i2 r2, (Key rec, Value rec, None))) ∧
  (∀ i2, at_EOF i1 i2 →
     ReadSubsequentString fuel r key
     = Some (set_orig_in i2 r2, ("", "", None))).
Proof.
  intros Hl Hs Hn Hpre Hfuel. unfold ReadSubsequentString. rewrite Hl, Hs.
  replace fuel with (n + S (fuel - S n))%nat by lia.
  rewrite (ReadSubsequentString_loop_skip n r2 pre i1) by done. simpl.
  split.
  - intros i2 rec -> Hle.
    apply key_le_lt_eq in Hle as [Hlt| ->].
    + apply key_lt_flip in Hlt. rewrite Hlt. by rewrite orb_true_r.
    + by rewrite (proj2 (Compare_zero _ _) eq_refl).
  - by intros i2 [rec ->].
Qed.

Lemma ReadSubsequentString_loop_at_or_after fuel :
  ∀ r key r' k v,
    ReadSubsequentString_loop fuel r key = Some (r', (k, v, None)) →
    (k = "" ∧ v = "") ∨ key_le key k.
Proof.
  induction fuel as [|fuel IH]; intros r key r' k v; simpl; [done|].
  destruct (rio_ReadKeyValue (orig_in r)) as [i [rec [[|code]|]]].
  - intros [= <- <- <-]. by left.
  - done.
  - destruct (strings_Compare (Key rec) key =? 0) eqn:E0; simpl.
    { intros [= <- <- <-]. right. apply Compare_zero in E0 as ->.
      apply key_le_refl. }
    destruct (0 <? strings_Compare (Key rec) key) eqn:E1; [|apply IH].
    intros [= <- <- <-]. right. apply key_lt_flip in E1.
    apply key_le_lt_eq. by left.
Qed.

(** A record ReadSubsequentString returns never has a key below the
    target: it returns a record at or above it, or nothing. *)
Theorem ReadSubsequentString_at_or_after fuel r key r' k v :
  ReadSubsequentString fuel r key = Some (r', (k, v, None)) →
  (k = "" ∧ v = "") ∨ key_le key k.
Proof.
  unfold ReadSubsequentString.
  destruct (indexLookup fuel r key) as [[r1 [off [e|]]]|]; [done| |done].
  destruct (SeekTo fuel r1 off) as [[r2 [e|]]|]; [done| |done].
  apply ReadSubsequentString_loop_at_or_after.
Qed.

Lemma ReadString_loop_as_subsequent fuel :
  ∀ r key,
    ReadString_loop fuel r key
    = match ReadSubsequentString_loop fuel r key with
      | None => None
      | Some (r', (k, v, None)) =>
        Some (r', (if decide (k = key) then v else "", None))
      | Some (r', (_, _, Some e)) => Some (r', ("", Some e))
      end.
Proof.
  induction fuel as [|fuel IH]; intros r key; simpl; [done|].
  destruct (rio_ReadKeyValue (orig_in r)) as [i [rec [[|code]|]]].
  - by case_decide.
  - done.
  - destruct (strings_Compare (Key rec) key =? 0) eqn:E0; simpl.
    { apply Compare_zero in E0. by rewrite decide_True. }
    destruct (0 <? strings_Compare (Key rec) key) eqn:E1; [|apply IH].
    rewrite decide_False; [done|].
    intros Heq. apply Compare_zero in Heq. congruence.
Qed.

(** The exact lookup is the lookup at or after the key, kept when the key
    found is the key asked for and emptied otherwise: same reader after the
    call, same error. *)
Theorem ReadString_as_subsequent fuel r key :
  ReadString fuel r key
  = match ReadSubsequentString fuel r key with
    | None => None
    | Some (r', (k, v, None)) =>
      Some (r', (if decide (k = key) then v else "", None))
    | Some (r', (_, _, Some e)) => Some (r', ("", Some e))
    end.
Proof.
  unfold ReadString, ReadSubsequentString.
  destruct (indexLookup fuel r key) as [[r1 [off [e|]]]|]; [done| |done].
  destruct (SeekTo fuel r1 off) as [[r2 [e|]]|]; [done| |done].
  apply ReadString_loop_as_subsequent.
Qed.

(** ReadAllStrings reads to the first error.  It returns the caller's map
    with, for every record read, the value assigned to the key, in the
    order read: a key read has the value of the last record with it, any
    other key keeps what the map had.  The error is nil when the stream
    ended with [io.EOF]; any other error is returned, with the records
    read before it in the map. *)
Theorem ReadAllStrings_reads fuel :
  ∀ r (rv : gmap string string) recs e i',
    read_records fuel (orig_in r) = Some (recs, e, i') →
    ReadAllStrings fuel r rv
    = Some (set_orig_in i' r, (assign_all Value recs rv, nil_on_EOF e)) ∧
    ∀ k, assign_all Value recs rv !! k
         = match list_find (λ rec, Key rec = k) (reverse recs) with
           | Some (_, rec) => Some (Value rec)
           | None => rv !! k
           end.
Proof.
  intros r rv recs e i' H. split; [|intros k; apply assign_all_lookup].
  revert r rv recs e i' H.
  induction fuel as [|fuel IH]; intros r rv recs e i'; [done|]. simpl.
  destruct (rio_ReadKeyValue (orig_in r)) as [i [rec [e1|]]].
  - intros [= <- <- <-]. by destruct e1.
  - destruct (read_records fuel i) as [[[recs1 e2] i2]|] eqn:E; [|done].
    intros [= <- <- <-].
    by rewrite (IH (set_orig_in i r) _ recs1 e2 i2).
Qed.

End Scans.

(** ** Seeking without a Seeker, and the offset the reader keeps *)

Section Seeking.
Context {F : Type} {fs : Filesystem F} {codec : ProtoCodec}.
Implicit Types (r : Reader F).

Lemma SeekTo_loop_bounded (t : Z) :
  read_bounded → t < 2 ^ 63 →
  ∀ fuel r r' e,
    0 ≤ offset r ≤ t →
    SeekTo_loop fuel r t = Some (r', e) →
    offset r ≤ offset r' ≤ t ∧ (e = None → offset r' = t).
Proof.
  intros Hb Ht. induction fuel as [|fuel IH]; intros r r' e Hr; simpl.
  - destruct (offset r <? t) eqn:E; [done|]. intros [= <- <-]. lia.
  - destruct (offset r <? t) eqn:E; [|intros [= <- <-]; lia].
    apply Z.ltb_lt in E. rewrite int64_small by lia.
    set (l := if t - offset r <? 1024 then t - offset r else 1024).
    assert (0 < l ≤ t - offset r) as Hl.
    { unfold l. destruct (t - offset r <? 1024) eqn:E'; lia. }
    pose proof (Hb (orig_in r) l (proj1 Hl)) as Hread.
    destruct (fs_Read (orig_in r) l) as [i [n [e1|]]]; simpl in Hread.
    + intros [= <- <-]. simpl. rewrite int64_small by lia.
      split; [lia|done].
    + assert (int64 (offset r + n) = offset r + n) as Hi
        by (apply int64_small; lia).
      intros H. apply IH in H.
      * simpl in H. rewrite Hi in H. split; [lia|tauto].
      * simpl. rewrite Hi. lia.
Qed.

Lemma SeekTo_loop_reaches (t : Z) :
  read_bounded → read_progress → t < 2 ^ 63 →
  ∀ fuel r,
    0 ≤ offset r ≤ t → t - offset r ≤ Z.of_nat fuel →
    ∃ r', SeekTo_loop fuel r t = Some (r', None) ∧ offset r' = t.
Proof.
  intros Hb Hp Ht. induction fuel as [|fuel IH]; intros r Hr Hfuel; simpl.
  - destruct (offset r <? t) eqn:E; [lia|]. exists r. split; [done|lia].
  - destruct (offset r <? t) eqn:E; [|exists r; split; [done|lia]].
    apply Z.ltb_lt in E. rewrite int64_small by lia.
    set (l := if t - offset r <? 1024 then t - offset r else 1024).
    assert (0 < l ≤ t - offset r) as Hl.
    { unfold l. destruct (t - offset r <? 1024) eqn:E'; lia. }
    pose proof (Hb (orig_in r) l (proj1 Hl)) as Hread.
    pose proof (Hp (orig_in r) l (proj1 Hl)) as [Hok Hpos].
    destruct (fs_Read (orig_in r) l) as [i [n [e1|]]]; simpl in *; [done|].
    assert (int64 (offset r + n) = offset r + n) as Hi
      by (apply int64_small; lia).
    apply IH; simpl; rewrite Hi; lia.
Qed.

(** SeekTo on a stream that is no Seeker, with offsets that fit 63 bits
    and reads that hand out no more than asked.  Backwards it returns
    Err_NotSeeker and leaves the reader, stream included, as it was.
    Forwards it never passes the target, and it ends without error only at
    the target; on a stream that always has more it gets there. *)
Theorem SeekTo_emulated fuel r (t : Z) :
  fs_Seeker (orig_in r) = false → read_bounded →
  0 ≤ offset r → t < 2 ^ 63 →
  (t < offset r → SeekTo fuel r t = Some (r, Some Err_NotSeeker)) ∧
  (offset r ≤ t → ∀ r' e,
     SeekTo fuel r t = Some (r', e) →
     offset r ≤ offset r' ≤ t ∧ (e = None → offset r' = t)) ∧
  (offset r ≤ t → read_progress → t - offset r ≤ Z.of_nat fuel →
     ∃ r', SeekTo fuel r t = Some (r', None) ∧ offset r' = t).
Proof.
  intros Hs Hb Hr Ht. unfold SeekTo. rewrite Hs. split; [|split].
  - intros Hlt. apply Z.ltb_lt in Hlt. by rewrite Hlt.
  - intros Hle r' e.
    replace (t <? offset r) with false by (symmetry; apply Z.ltb_ge; lia).
    by apply SeekTo_loop_bounded.
  - intros Hle Hp Hfuel.
    replace (t <? offset r) with false by (symmetry; apply Z.ltb_ge; lia).
    by apply SeekTo_loop_reaches.
Qed.

(** On a stream that is a Seeker, a SeekTo that succeeds leaves the offset
    the reader keeps as it was, and Tell returns that kept offset whenever
    the Tell of the stream reports no error: after SeekTo to [t], Tell
    still answers the offset from before. *)
Theorem Tell_after_SeekTo fuel r (t : Z) r1 :
  fs_Seeker (orig_in r) = true →
  SeekTo fuel r t = Some (r1, None) →
  offset r1 = offset r ∧ orig_in r1 = (fs_Seek (orig_in r) t).1 ∧
  ((fs_Tell (orig_in r1)).2.2 = None → (Tell r1).2 = offset r).
Proof.
  intros Hs. unfold SeekTo. rewrite Hs.
  destruct (fs_Seek (orig_in r) t) as [i [e|]]; [done|].
  intros [= <-]. simpl. repeat split.
  unfold Tell. simpl. destruct (fs_Seeker i); [|done].
  by destruct (fs_Tell i) as [i' [p [e|]]].
Qed.
End Seeking.

(** ** The in-memory file and the endless stream keep the laws *)

Lemma mem_tell_pure : tell_pure (F := Mem.File).
Proof. intros s. simpl. unfold Mem.Tell. by destruct (Mem.broken s). Qed.

Lemma mem_read_bounded : read_bounded (F := Mem.File).
Proof.
  intros s n Hn. simpl. unfold Mem.Read.
  destruct (Mem.broken s); simpl; [lia|].
  destruct (Mem.size (Mem.frames s) <=? Mem.pos s) eqn:E; simpl; [lia|].
  apply Z.leb_gt in E. lia.
Qed.

Lemma endless_read_bounded : read_bounded (F := Endless.Stream).
Proof. intros s n Hn. simpl. lia. Qed.

Lemma endless_read_progress : read_progress (F := Endless.Stream).
Proof. intros s n Hn. simpl. split; [done|lia]. Qed.

(** ** The further properties on sample streams *)

Local Ltac by_evaluation :=
  first [ reflexivity | (simpl; lia) | done | (vm_compute; lia)
        | (vm_compute; discriminate) | (vm_compute; intuition congruence) ].

Lemma WriteString_each_ascending_witness :
  Sorted key_le ["" ; "aaa"; "aab"; "mmm"] ∧
  last_key (Sample.after 3) = "mmm".
Proof.
  apply (WriteString_each_ascending Sample.scenario_writer Sample.records
           (Sample.after 3)).
  reflexivity.
Defined.

Lemma WriteString_every_n_witness :
  prev_index_ctr (Sample.after 1) = 1 ∧ prev_index_ctr (Sample.after 2) = 0.
Proof.
  split.
  - refine (proj1 (WriteString_every_n Sample.scenario_writer
                     (Sample.empty_file true) "aaa" "foo" (Sample.after 1) 2
                     _ _ _ _ _ _)); by_evaluation.
  - refine (proj1 (WriteString_every_n (Sample.after 1)
                     (Sample.empty_file true) "aab" "bar" (Sample.after 2) 2
                     _ _ _ _ _ _)); by_evaluation.
Defined.

Lemma WriteString_prefixlen_witness :
  String.prefix (index_prefix 1 "aaa") "aaa" = true ∧
  len (index_prefix 1 "aaa") ≤ 1.
Proof.
  pose proof (WriteString_prefixlen
                (NewIndexedWriter (Sample.empty_file true)
                   (Sample.empty_file true) IndexType_PREFIXLEN 1)
                (Sample.empty_file true) "aaa" "foo" _ 1
                eq_refl eq_refl eq_refl ltac:(lia) eq_refl)
    as (_ & _ & H1 & H2 & _).
  exact (conj H1 H2).
Defined.

Lemma WriteString_misconfigured_witness :
  (∃ why, WriteString
            (NewIndexedWriter (Sample.empty_file true)
               (Sample.empty_file true) IndexType_EVERY_N 0) "aaa" "foo"
          = Panic why) ∧
  WriteString
    (NewIndexedWriter (Sample.empty_file true) (Sample.empty_file true) 7 1)
    "aaa" "foo"
  = Done (set_last_key "aaa"
            (set_out (Mem.mkFile [Wire.marshal_KeyValue (mkKeyValue "aaa" "foo")]
                        14 true None)
               (NewIndexedWriter (Sample.empty_file true)
                  (Sample.empty_file true) 7 1)),
          Some Err_UnsupportedIndexType).
Proof.
  split.
  - refine (proj1 (WriteString_misconfigured
                     (NewIndexedWriter (Sample.empty_file true)
                        (Sample.empty_file true) IndexType_EVERY_N 0)
                     (Sample.empty_file true) "aaa" "foo"
                     (Wire.marshal_KeyValue (mkKeyValue "aaa" "foo"))
                     (Mem.mkFile
                        [Wire.marshal_KeyValue (mkKeyValue "aaa" "foo")]
                        14 true None) 14 _ _ _ _) _ _); by_evaluation.
  - refine (proj2 (proj2 (WriteString_misconfigured
                     (NewIndexedWriter (Sample.empty_file true)
                        (Sample.empty_file true) 7 1)
                     (Sample.empty_file true) "aaa" "foo"
                     (Wire.marshal_KeyValue (mkKeyValue "aaa" "foo"))
                     (Mem.mkFile
                        [Wire.marshal_KeyValue (mkKeyValue "aaa" "foo")]
                        14 true None) 14 _ _ _ _)) _ _ _); by_evaluation.
Defined.

Lemma WriteString_error_after_write_witness :
  ∃ w', WriteString
          (NewIndexedWriter (Sample.empty_file true) Sample.broken_file
             IndexType_EVERY_N 1) "aaa" "foo"
        = Done (w', Some (External Sample.disk_full)) ∧
        last_key w' = "aaa" ∧ index_offset w' = 0.
Proof.
  eexists. split; [reflexivity|].
  assert (¬ key_lt "aaa"
            (last_key (NewIndexedWriter (Sample.empty_file true)
                         Sample.broken_file IndexType_EVERY_N 1))) as Hord
    by by_evaluation.
  pose proof (WriteString_error_after_write
                (NewIndexedWriter (Sample.empty_file true) Sample.broken_file
                   IndexType_EVERY_N 1) "aaa" "foo"
                (Wire.marshal_KeyValue (mkKeyValue "aaa" "foo"))
                (Mem.mkFile [Wire.marshal_KeyValue (mkKeyValue "aaa" "foo")]
                   14 true None) 14 _ (External Sample.disk_full)
                Hord eq_refl eq_refl eq_refl)
    as (_ & H1 & H2 & _).
  exact (conj H1 H2).
Defined.

Lemma WriteString_without_index_witness :
  WriteString (NewWriter (Sample.empty_file true)) "aaa" "foo"
  ≠ Panic "integer divide by zero".
Proof.
  refine (proj1 (WriteString_without_index
                   (NewWriter (Sample.empty_file true)) "aaa" "foo" _)
            "integer divide by zero").
  left. reflexivity.
Defined.

Lemma WriteStringMap_no_order_violation_witness :
  WriteStringMap (range := range_backwards)
    (NewWriter (Sample.empty_file true)) More.small_map
  ≠ Done (NewWriter (Sample.empty_file true), Some Err_KeyOrderViolation).
Proof.
  apply (WriteStringMap_no_order_violation (range := range_backwards)
           (NewWriter (Sample.empty_file true)) More.small_map).
  reflexivity.
Defined.

Lemma WriteStringMap_any_order_witness :
  WriteStringMap (range := range_listed)
    (NewWriter (Sample.empty_file true)) More.small_map
  = WriteStringMap (range := range_backwards)
      (NewWriter (Sample.empty_file true)) More.small_map.
Proof.
  apply (WriteStringMap_any_order range_listed range_backwards
           (NewWriter (Sample.empty_file true)) More.small_map).
  - exact range_listed_lawful.
  - exact range_backwards_lawful.
Defined.

Lemma NewReaderWithIdx_cache_witness :
  ∃ r', NewReaderWithIdx 4 None (Sample.data_file true) More.repeated_index
          true = Some (r', None) ∧
        entry_index_cache r' !! "a" = Some 3 ∧
        entry_index_cache r' !! "b" = Some 2.
Proof.
  destruct (NewReaderWithIdx_cache 4 (Sample.data_file true)
              More.repeated_index
              [mkIndexRecord "a" 1; mkIndexRecord "b" 2; mkIndexRecord "a" 3]
              io_EOF (Mem.with_pos 27 More.repeated_index)
              mem_tell_pure eq_refl)
    as (r' & Hr & _ & _ & _ & _ & Hk).
  exists r'. split; [exact Hr|]. split; [exact (Hk "a")|exact (Hk "b")].
Defined.

Lemma indexLookup_cached_any_order_witness :
  indexLookup (range := range_listed) 1 More.cached_reader "zzz"
  = indexLookup (range := range_backwards) 1 More.cached_reader "zzz".
Proof.
  apply (indexLookup_cached_any_order range_listed range_backwards 1
           More.cached_reader "zzz").
  - exact range_listed_lawful.
  - exact range_backwards_lawful.
  - reflexivity.
Defined.

Lemma indexLookup_cached_as_on_disk_witness :
  ∃ rc rd rc' rd' off,
    NewReaderWithIdx 3 None (Sample.data_file true) More.distinct_index true
    = Some (rc, None) ∧
    NewReaderWithIdx 3 None (Sample.data_file true) More.distinct_index false
    = Some (rd, None) ∧
    indexLookup (range := range_listed) 3 rc "mmz" = Some (rc', (off, None)) ∧
    indexLookup (range := range_listed) 3 rd "mmz" = Some (rd', (off, None)).
Proof.
  apply (indexLookup_cached_as_on_disk (range := range_listed) 3
           (Sample.data_file true) More.distinct_index
           [mkIndexRecord "aab" 14; mkIndexRecord "mmm" 28]
           (Mem.with_pos 22 More.distinct_index) "mmz").
  - exact mem_tell_pure.
  - exact range_listed_lawful.
  - reflexivity.
  - apply (bool_decide_unpack _). by vm_compute.
Defined.

Lemma indexLookup_no_made_up_offset_witness :
  ∃ r' off,
    indexLookup (range := range_listed) 3 (Sample.indexed_reader true) "mmm"
    = Some (r', (off, None)) ∧
    (off = 0 ∨ ∃ k, (k, off) ∈ [("aab", 14)]).
Proof.
  apply (indexLookup_no_made_up_offset (range := range_listed) 3
           (Sample.indexed_reader true) "mmm" [("aab", 14)]).
  - reflexivity.
  - intros _ _. eexists. split; reflexivity.
Defined.

Lemma ReadSubsequentString_scan_witness :
  ReadSubsequentString (range := range_listed) 3
    (NewReader (Sample.data_file true)) "b"
  = Some (set_orig_in (Mem.with_pos 42 (Sample.data_file true))
            (NewReader (Sample.data_file true)), ("mmm", "baz", None)).
Proof.
  refine (proj1 (ReadSubsequentString_scan (range := range_listed) 3
           (NewReader (Sample.data_file true)) "b"
           (NewReader (Sample.data_file true)) 0
           (NewReader (Sample.data_file true)) 2
           [mkKeyValue "aaa" "foo"; mkKeyValue "aab" "bar"]
           (Mem.with_pos 28 (Sample.data_file true)) _ _ _ _ _)
          (Mem.with_pos 42 (Sample.data_file true))
          (mkKeyValue "mmm" "baz") _ _).
  - reflexivity.
  - reflexivity.
  - reflexivity.
  - repeat constructor.
  - lia.
  - reflexivity.
  - by_evaluation.
Defined.

Lemma ReadSubsequentString_at_or_after_witness :
  ("mmm" = "" ∧ "baz" = "") ∨ key_le "b" "mmm".
Proof.
  apply (ReadSubsequentString_at_or_after (range := range_listed) 3
           (NewReader (Sample.data_file true)) "b"
           (set_orig_in (Mem.with_pos 42 (Sample.data_file true))
              (NewReader (Sample.data_file true))) "mmm" "baz").
  reflexivity.
Defined.

Lemma ReadAllStrings_reads_witness :
  ReadAllStrings 4 (NewReader (Sample.data_file true))
    {[ "old" := "kept"; "aaa" := "gone" ]}
  = Some (set_orig_in (Mem.with_pos 42 (Sample.data_file true))
            (NewReader (Sample.data_file true)),
          (assign_all Value
             [mkKeyValue "aaa" "foo"; mkKeyValue "aab" "bar";
              mkKeyValue "mmm" "baz"]
             {[ "old" := "kept"; "aaa" := "gone" ]}, None)).
Proof.
  apply (ReadAllStrings_reads 4 (NewReader (Sample.data_file true))
           {[ "old" := "kept"; "aaa" := "gone" ]}
           [mkKeyValue "aaa" "foo"; mkKeyValue "aab" "bar";
            mkKeyValue "mmm" "baz"]
           io_EOF (Mem.with_pos 42 (Sample.data_file true))).
  reflexivity.
Defined.


Lemma SeekTo_emulated_witness :
  SeekTo 1 (set_offset 14 (NewReader (Sample.data_file false))) 0
  = Some (set_offset 14 (NewReader (Sample.data_file false)),
          Some Err_NotSeeker) ∧
  ∃ r', SeekTo 2050 (NewReader (Endless.mkStream 0)) 2050 = Some (r', None) ∧
        offset r' = 2050.
Proof.
  split.
  - refine (proj1 (SeekTo_emulated 1
                     (set_offset 14 (NewReader (Sample.data_file false))) 0
                     _ mem_read_bounded _ _) _); by_evaluation.
  - refine (proj2 (proj2 (SeekTo_emulated 2050
                     (NewReader (Endless.mkStream 0)) 2050
                     _ endless_read_bounded _ _)) _ endless_read_progress _);
      by_evaluation.
Defined.

Lemma Tell_after_SeekTo_witness :
  offset (set_orig_in (Mem.with_pos 28 (Sample.data_file true))
            (NewReader (Sample.data_file true))) = 0 ∧
  (Tell (set_orig_in (Mem.with_pos 28 (Sample.data_file true))
           (NewReader (Sample.data_file true)))).2 = 0.
Proof.
  pose proof (Tell_after_SeekTo 1 (NewReader (Sample.data_file true)) 28
                (set_orig_in (Mem.with_pos 28 (Sample.data_file true))
                   (NewReader (Sample.data_file true)))
                eq_refl eq_refl) as (H1 & _ & H2).
  exact (conj H1 (H2 eq_refl)).
Defined.

(** ** Exact lookup over ascending records *)

Section SortedLookup.
Context {F : Type} {fs : Filesystem F} {codec : ProtoCodec}
        {range : MapRange}.
Implicit Types (r : Reader F) (key : string).

(** Over a stream whose records come in ascending order of keys, and once
    the index lookup and the seek have succeeded, ReadString is a lookup in
    what the stream holds from there: it returns the value of the first
    record with the key, and the empty value when no record has it, with
    no error either way. *)
Theorem ReadString_sorted_lookup fuel r key r1 off r2 n recs i1 i2 :
  indexLookup fuel r key = Some (r1, (off, None)) →
  SeekTo fuel r1 off = Some (r2, None) →
  next_records n (orig_in r2) = Some (recs, i1) →
  at_EOF i1 i2 →
  StronglySorted (λ a b, key_le (Key a) (Key b)) recs →
  (n < fuel)%nat →
  ∃ r', ReadString fuel r key
        = Some (r', (from_option (λ found, Value found.2) ""
                       (list_find (λ rec, Key rec = key) recs), None)).
Proof.
  intros Hl Hs Hn Heof Hsorted Hfuel. unfold ReadString. rewrite Hl, Hs.
  by eapply ReadString_loop_sorted.
Qed.
End SortedLookup.

Lemma ReadString_sorted_lookup_witness :
  ∃ r', ReadString (range := range_listed) 4
          (NewReader (Sample.data_file true)) "aab"
        = Some (r', ("bar", None)).
Proof.
  apply (ReadString_sorted_lookup (range := range_listed) 4
           (NewReader (Sample.data_file true)) "aab"
           (NewReader (Sample.data_file true)) 0
           (NewReader (Sample.data_file true)) 3
           [mkKeyValue "aaa" "foo"; mkKeyValue "aab" "bar";
            mkKeyValue "mmm" "baz"]
           (Mem.with_pos 42 (Sample.data_file true))
           (Mem.with_pos 42 (Sample.data_file true))).
  - reflexivity.
  - reflexivity.
  - reflexivity.
  - eexists. reflexivity.
  - repeat constructor; by_evaluation.
  - lia.
Defined.
